(** * dupescout: the concurrent duplicate search of [dupescout.go]

    A shallow embedding of [src/dupescout/dupescout.go].  The file has three
    layers.

    - The aggregation core ([consumePairs], [processResults]) is embedded as
      functions over a finite map from keys to path slices.
    - The code run by the worker pool ([search] with its [WalkDir] callback,
      [producePair]) is embedded as programs of a small monad whose
      operations are the accesses to shared state: the cancellation check,
      the key generator, the send on the pair channel and [g.Go].
    - [run], [GetResults], [StreamResults], the goroutines they start and the
      channels between them are embedded as an interleaving step relation. *)

From stdpp Require Import gmap strings list.

Open Scope string_scope.
Open Scope nat_scope.
Open Scope list_scope.
Set Warnings "-register-all".

(** ** Data *)

(** [type pair struct { key string; path string }] *)
Record pair := Pair { key : string; path : string }.

#[global] Instance pair_eq_dec : EqDecision pair.
Proof. solve_decision. Defined.

(** A Go slice of strings, as far as the code can tell slices apart: the nil
    slice, or a non-nil slice with its elements. *)
Inductive slice :=
| nil_slice
| mk_slice (elems : list string).

(** [append(s, xs...)]: appending nothing to nil gives nil back, every other
    result is a non-nil slice. *)
Definition append (s : slice) (xs : list string) : slice :=
  match s, xs with
  | nil_slice, [] => nil_slice
  | nil_slice, _ :: _ => mk_slice xs
  | mk_slice l, _ => mk_slice (l ++ xs)
  end.

Definition elems_of (s : slice) : list string :=
  match s with nil_slice => [] | mk_slice l => l end.

(** ** The aggregation map

    [xsync.MapOf[string, []string]] is used through [Load], [Store] and
    [Range].  [Range] calls its function once per entry; the library walks its
    hash buckets and promises no order, so the enumeration is any arrangement
    of the entries. *)
Module MapOf.

Definition Load (m : gmap string (list string)) (k : string) : option (list string) :=
  m !! k.

Definition Store (m : gmap string (list string)) (k : string) (v : list string)
  : gmap string (list string) :=
  <[k := v]> m.

Definition Range (m : gmap string (list string)) (enum : list (string * list string)) : Prop :=
  enum ≡ₚ map_to_list m.

End MapOf.

(** ** consumePairs: the loop body (lines 88-102)

    One iteration of [for p := range dup.pairs]: the new map, and the paths
    sent to [dupesChan] in the order they are sent. *)
Definition consumePair (streaming : bool) (m : gmap string (list string)) (p : pair)
  : gmap string (list string) * list string :=
  match MapOf.Load m (key p) with
  | Some paths =>
      (MapOf.Store m (key p) (paths ++ [path p]),
       if streaming then
         match paths with
         | [first] => [first; path p]     (* len(paths) == 1: paths[0], then p.path *)
         | _ => [path p]
         end
       else [])
  | None => (MapOf.Store m (key p) [path p], [])
  end.

(** The loop over a sequence of received pairs, from a map and the paths
    already sent. *)
Definition consumeLoop (streaming : bool)
    (st : gmap string (list string) * list string) (ps : list pair)
  : gmap string (list string) * list string :=
  foldl (λ st p, let r := consumePair streaming st.1 p in (r.1, st.2 ++ r.2)) st ps.

(** The map and the stream after the pairs [ps], from [xsync.NewMapOf()]. *)
Definition consumed (streaming : bool) (ps : list pair) : gmap string (list string) :=
  (consumeLoop streaming (∅, []) ps).1.

Definition streamed (ps : list pair) : list string :=
  (consumeLoop true (∅, []) ps).2.

(** ** processResults (lines 165-177) *)

(** The body of the [m.Range] callback, folded over the entries in the order
    [Range] presents them; [res] starts as [[]string{}]. *)
Definition processEntries (enum : list (string * list string)) : slice :=
  foldl (λ res kv, if decide (1 < length kv.2) then append res kv.2 else res)
        (mk_slice []) enum.

Definition processResults (m : gmap string (list string)) (res : slice) : Prop :=
  ∃ enum, MapOf.Range m enum ∧ res = processEntries enum.

(** ** Discovery order

    The paths consumed with key [k], in the order they were consumed. *)
Definition group (k : string) (ps : list pair) : list string :=
  path <$> filter (λ p, key p = k) ps.

(** Keys in the order of their first occurrence. *)
Fixpoint first_keys (seen : list string) (ps : list pair) : list string :=
  match ps with
  | [] => []
  | p :: ps =>
      if decide (key p ∈ seen) then first_keys seen ps
      else key p :: first_keys (key p :: seen) ps
  end.

(** What the result would be if groups came out in discovery order. *)
Definition discovery_order (ps : list pair) : list string :=
  concat ((λ k, group k ps) <$> filter (λ k, 1 < length (group k ps)) (first_keys [] ps)).

(** The map holds, for every key met so far, the key's group. *)
Definition tracks (hs : list pair) (m : gmap string (list string)) : Prop :=
  ∀ k, m !! k = if decide (group k hs = []) then None else Some (group k hs).

(** What one iteration sends, read off the history instead of the map. *)
Definition emission (hs : list pair) (p : pair) : list string :=
  match group (key p) hs with
  | [] => []
  | [first] => [first; path p]
  | _ => [path p]
  end.

(** ** Errors

    A Go [error] as far as a caller can inspect it: the two sentinels of
    [path/filepath], compared by identity; a [*fs.PathError], which is what
    [os.Lstat], [os.ReadDir] and [DirEntry.Info] fail with; and the plain
    message errors of [errors.New] and of [fmt.Errorf] without [%w].  The nil
    error is [None]. *)
Inductive PathError := mkPathError (op file : string) (errno : nat).

Inductive error :=
| SkipDir
| SkipAll
| ofPathError (e : PathError)
| errorString (msg : string).

#[global] Instance PathError_eq_dec : EqDecision PathError.
Proof. solve_decision. Defined.

#[global] Instance error_eq_dec : EqDecision error.
Proof. solve_decision. Defined.

(** [fmt.Errorf(format, arg)] for a format that ends in its only verb, [%s]. *)
Definition Errorf (format arg : string) : error := errorString (format +:+ arg).

(** ** The file tree

    What the walk sees of the file system: an entry has a name, a type, the
    outcome of [Info()] (a failure or the size) and, for a directory, the
    outcome of [os.ReadDir]: the entries read and possibly an error. *)
Inductive FileMode := ModeDir | ModeRegular | ModeIrregular.

#[global] Instance FileMode_eq_dec : EqDecision FileMode.
Proof. solve_decision. Defined.

Inductive DirEntry :=
  Entry (name : string) (mode : FileMode) (info : PathError + Z)
        (dirs : list DirEntry) (dirs_err : option PathError).

Definition Name (d : DirEntry) : string := let 'Entry n _ _ _ _ := d in n.
Definition Type_ (d : DirEntry) : FileMode := let 'Entry _ m _ _ _ := d in m.
Definition IsDir (d : DirEntry) : bool := bool_decide (Type_ d = ModeDir).
Definition IsRegular (d : DirEntry) : bool := bool_decide (Type_ d = ModeRegular).
Definition Info (d : DirEntry) : PathError + Z := let 'Entry _ _ i _ _ := d in i.
Definition ReadDir (d : DirEntry) : list DirEntry * option PathError :=
  let 'Entry _ _ _ ds e := d in (ds, e).

(** [filepath.Join], for a directory path and an entry name. *)
Definition Join (dir name : string) : string := dir +:+ "/" +:+ name.

(** ** Programs run by the worker pool

    The code of a task, with its accesses to shared state left as
    operations: [dup.shuttingDown()], a call of the key generator, a send on
    [dup.pairs], and [dup.g.Go(task)].  A task ends by returning an error or
    nil. *)
Definition KeyGeneratorFunc : Type := string → string * option error.

Inductive prog :=
| Ret (r : option error)
| ShuttingDown (k : bool → prog)
| CallKeyGen (keyGen : KeyGeneratorFunc) (file : string) (k : string * option error → prog)
| SendPair (p : pair) (k : prog)
| Go (task : prog) (k : prog).

Fixpoint bind (p : prog) (f : option error → prog) : prog :=
  match p with
  | Ret r => f r
  | ShuttingDown k => ShuttingDown (λ down, bind (k down) f)
  | CallKeyGen keyGen file k => CallKeyGen keyGen file (λ r, bind (k r) f)
  | SendPair q k => SendPair q (bind k f)
  | Go t k => Go t (bind k f)
  end.

Notation "'let*' x ':=' p 'in' q" := (bind p (λ x, q))
  (at level 10, x name, p at level 100, q at level 200, only parsing).

(** ** filepath.WalkDir (Go standard library) *)

Definition WalkDirFunc : Type := string → option DirEntry → option error → prog.

(** [if err == SkipDir && d.IsDir() { err = nil }; return err] *)
Definition skipped (err : option error) (d : DirEntry) : prog :=
  if bool_decide (err = Some SkipDir) && IsDir d then Ret None else Ret err.

(** The loop [for _, d1 := range dirs] of [walkDir]. *)
Fixpoint walkEntries (walk : DirEntry → prog) (dirs : list DirEntry) : prog :=
  match dirs with
  | [] => Ret None
  | d1 :: rest =>
      let* err := walk d1 in
      match err with
      | None => walkEntries walk rest
      | Some SkipDir => Ret None            (* break *)
      | Some e => Ret (Some e)
      end
  end.

Fixpoint walkDir (file : string) (d : DirEntry) (walkDirFn : WalkDirFunc) : prog :=
  let* err := walkDirFn file (Some d) None in
  if bool_decide (err ≠ None) || negb (IsDir d) then skipped err d
  else
    match d with
    | Entry _ _ _ dirs rerr =>
      let* err := match rerr with
                  | Some e => walkDirFn file (Some d) (Some (ofPathError e))
                  | None => Ret None
                  end in
      if bool_decide (err ≠ None) then skipped err d
      else walkEntries (λ d1, walkDir (Join file (Name d1)) d1 walkDirFn) dirs
    end.

(** [lstat root] is [os.Lstat(root)] together with the tree below [root]. *)
Definition WalkDir (lstat : string → PathError + DirEntry) (root : string)
    (fn : WalkDirFunc) : prog :=
  let* err := match lstat root with
              | inl e => fn root None (Some (ofPathError e))
              | inr info => walkDir root info fn
              end in
  if bool_decide (err = Some SkipDir ∨ err = Some SkipAll) then Ret None else Ret err.

(** ** Configuration

    [Cfg] is declared outside [dupescout.go]; these are the fields and
    methods the file uses.  [defaults] is a parameter of the model below. *)
Record Cfg := {
  Path : string;
  Workers : Z;
  KeyGenerator : KeyGeneratorFunc;
  skipDir : string → bool;
  skipFile : string → bool;
}.

(** ** producePair (lines 114-131) *)
Definition producePair (file : string) (keyGen : KeyGeneratorFunc) : prog :=
  ShuttingDown (λ down,
    if down then Ret None
    else CallKeyGen keyGen file (λ r,
      match r.2 with
      | Some err => Ret (Some err)
      | None =>
          if decide (r.1 = "") then
            Ret (Some (Errorf "key generator returned an empty key for path: " file))
          else SendPair (Pair r.1 file) (Ret None)
      end)).

(** ** search (lines 134-162)

    The callback given to [filepath.WalkDir].  [WalkDir] passes a nil entry
    only together with an error. *)
Definition walkFn (c : Cfg) : WalkDirFunc := λ file de err,
  ShuttingDown (λ down,
    if down then Ret None
    else match err with
    | Some e => Ret (Some e)
    | None =>
      match de with
      | None => Ret None
      | Some de =>
        if IsDir de && skipDir c file then Ret (Some SkipDir)
        else if IsRegular de && negb (skipFile c file) then
          match Info de with
          | inl _ => Ret None
          | inr size =>
              if decide (size = 0%Z) then Ret None
              else Go (producePair file (KeyGenerator c)) (Ret None)
          end
        else Ret None
      end
    end).

Definition search (lstat : string → PathError + DirEntry) (dir : string) (c : Cfg) : prog :=
  WalkDir lstat dir (walkFn c).

(** ** A task run on its own

    What a program does when every cancellation check gets the same answer
    [down]: its result, the tasks it hands to [g.Go], the pairs it sends and
    the files it calls the key generator on. *)
Record outcome := Outcome {
  result : option error;
  spawned : list prog;
  emitted : list pair;
  keyed : list string;
}.

Fixpoint exec (down : bool) (p : prog) : outcome :=
  match p with
  | Ret r => Outcome r [] [] []
  | ShuttingDown k => exec down (k down)
  | CallKeyGen keyGen file k =>
      let o := exec down (k (keyGen file)) in
      Outcome (result o) (spawned o) (emitted o) (file :: keyed o)
  | SendPair q k =>
      let o := exec down k in
      Outcome (result o) (spawned o) (q :: emitted o) (keyed o)
  | Go t k =>
      let o := exec down k in
      Outcome (result o) (t :: spawned o) (emitted o) (keyed o)
  end.

(** The directories a walk has to read: those not pruned and not below a
    pruned one. *)
Fixpoint walked_dirs (c : Cfg) (file : string) (d : DirEntry) : list DirEntry :=
  match d with
  | Entry _ _ _ dirs _ =>
      if IsDir d && negb (skipDir c file) then
        d :: flat_map (λ d1, walked_dirs c (Join file (Name d1)) d1) dirs
      else []
  end.

(** ** The running system *)

(** [dup.shutdown], a channel of capacity one that [gracefulShutdown] closes:
    empty, holding a signal, or closed. *)
Inductive shutdown_chan := SdEmpty | SdSignal | SdClosed.

(** [shuttingDown] (lines 180-187): the [select] receives when the channel is
    closed or holds a signal, which it takes out; otherwise it takes the
    [default] branch.  The answer and the channel afterwards. *)
Definition shuttingDown (ch : shutdown_chan) : bool * shutdown_chan :=
  match ch with
  | SdClosed => (true, SdClosed)
  | SdSignal => (true, SdEmpty)
  | SdEmpty => (false, SdEmpty)
  end.

(** The exported entry points.  [GetResults] calls [run(c, results, nil)];
    [StreamResults] calls [run(c, nil, dupesChan)], where the caller's
    channel may be nil ([false]). *)
Inductive call := GetResults | StreamResults (given : bool).

Definition resultsChan (cl : call) : bool :=
  match cl with GetResults => true | StreamResults _ => false end.

Definition dupesChan (cl : call) : bool :=
  match cl with GetResults => false | StreamResults given => given end.

(** Where the calling goroutine stands. *)
Inductive main_pc :=
| M_run                                   (* lines 40-52 *)
| M_shutdown                              (* line 54 *)
| M_search                                (* lines 55-57 *)
| M_wait                                  (* line 59 *)
| M_close (err : option error)            (* line 60 *)
| M_ret (err : option error)              (* line 61: run has returned err *)
| M_got (res : slice) (err : option error).   (* line 68: GetResults has returned *)

(** Where [consumePairs] stands. *)
Inductive consumer_pc :=
| C_off                                                  (* not started *)
| C_range (m : gmap string (list string))                (* line 88 *)
| C_send (out : list string) (m : gmap string (list string))   (* lines 95, 97 *)
| C_close                                                (* line 105 *)
| C_results (m : gmap string (list string))              (* line 109 *)
| C_done.

(** Where [gracefulShutdown] stands. *)
Inductive listener_pc :=
| L_off
| L_notify          (* line 191 *)
| L_recv            (* line 192 *)
| L_log             (* lines 193-194 *)
| L_done.

Inductive actor := Main | Worker | Aggregator | Listener | Signal.

Record state := State {
  main : main_pc;   (* the goroutine that called [GetResults] or [StreamResults] *)
  tasks : list prog;   (* goroutines started by [g.Go] and not finished: the count of the group's WaitGroup and of its semaphore *)
  g_err : option error;   (* [g.err], written once *)
  pairs : list pair;   (* buffer of [dup.pairs] *)
  pairs_closed : bool;
  consumer : consumer_pc;   (* the [consumePairs] goroutine *)
  listener : listener_pc;   (* the [gracefulShutdown] goroutine *)
  shutdown : shutdown_chan;   (* [dup.shutdown] *)
  dupes : list string;   (* what the caller has received on [dupesChan] *)
  dupes_closed : bool;
  results : option slice;   (* buffer of the [results] channel of [GetResults] *)
  sent : list pair;   (* history: every pair sent on [dup.pairs] *)
  received : list pair;   (* history: every pair received from [dup.pairs] *)
  roots : list string;   (* history: the directories [run] started a walk for *)
  finished : list (option error);   (* history: what the finished tasks returned, in order of finishing *)
}.

Definition set_main (x : main_pc) (s : state) : state :=
  State x (tasks s) (g_err s) (pairs s) (pairs_closed s) (consumer s) (listener s) (shutdown s) (dupes s) (dupes_closed s) (results s) (sent s) (received s) (roots s) (finished s).
Definition set_tasks (x : list prog) (s : state) : state :=
  State (main s) x (g_err s) (pairs s) (pairs_closed s) (consumer s) (listener s) (shutdown s) (dupes s) (dupes_closed s) (results s) (sent s) (received s) (roots s) (finished s).
Definition set_g_err (x : option error) (s : state) : state :=
  State (main s) (tasks s) x (pairs s) (pairs_closed s) (consumer s) (listener s) (shutdown s) (dupes s) (dupes_closed s) (results s) (sent s) (received s) (roots s) (finished s).
Definition set_pairs (x : list pair) (s : state) : state :=
  State (main s) (tasks s) (g_err s) x (pairs_closed s) (consumer s) (listener s) (shutdown s) (dupes s) (dupes_closed s) (results s) (sent s) (received s) (roots s) (finished s).
Definition set_pairs_closed (x : bool) (s : state) : state :=
  State (main s) (tasks s) (g_err s) (pairs s) x (consumer s) (listener s) (shutdown s) (dupes s) (dupes_closed s) (results s) (sent s) (received s) (roots s) (finished s).
Definition set_consumer (x : consumer_pc) (s : state) : state :=
  State (main s) (tasks s) (g_err s) (pairs s) (pairs_closed s) x (listener s) (shutdown s) (dupes s) (dupes_closed s) (results s) (sent s) (received s) (roots s) (finished s).
Definition set_listener (x : listener_pc) (s : state) : state :=
  State (main s) (tasks s) (g_err s) (pairs s) (pairs_closed s) (consumer s) x (shutdown s) (dupes s) (dupes_closed s) (results s) (sent s) (received s) (roots s) (finished s).
Definition set_shutdown (x : shutdown_chan) (s : state) : state :=
  State (main s) (tasks s) (g_err s) (pairs s) (pairs_closed s) (consumer s) (listener s) x (dupes s) (dupes_closed s) (results s) (sent s) (received s) (roots s) (finished s).
Definition set_dupes (x : list string) (s : state) : state :=
  State (main s) (tasks s) (g_err s) (pairs s) (pairs_closed s) (consumer s) (listener s) (shutdown s) x (dupes_closed s) (results s) (sent s) (received s) (roots s) (finished s).
Definition set_dupes_closed (x : bool) (s : state) : state :=
  State (main s) (tasks s) (g_err s) (pairs s) (pairs_closed s) (consumer s) (listener s) (shutdown s) (dupes s) x (results s) (sent s) (received s) (roots s) (finished s).
Definition set_results (x : option slice) (s : state) : state :=
  State (main s) (tasks s) (g_err s) (pairs s) (pairs_closed s) (consumer s) (listener s) (shutdown s) (dupes s) (dupes_closed s) x (sent s) (received s) (roots s) (finished s).
Definition set_sent (x : list pair) (s : state) : state :=
  State (main s) (tasks s) (g_err s) (pairs s) (pairs_closed s) (consumer s) (listener s) (shutdown s) (dupes s) (dupes_closed s) (results s) x (received s) (roots s) (finished s).
Definition set_received (x : list pair) (s : state) : state :=
  State (main s) (tasks s) (g_err s) (pairs s) (pairs_closed s) (consumer s) (listener s) (shutdown s) (dupes s) (dupes_closed s) (results s) (sent s) x (roots s) (finished s).
Definition set_roots (x : list string) (s : state) : state :=
  State (main s) (tasks s) (g_err s) (pairs s) (pairs_closed s) (consumer s) (listener s) (shutdown s) (dupes s) (dupes_closed s) (results s) (sent s) (received s) x (finished s).
Definition set_finished (x : list (option error)) (s : state) : state :=
  State (main s) (tasks s) (g_err s) (pairs s) (pairs_closed s) (consumer s) (listener s) (shutdown s) (dupes s) (dupes_closed s) (results s) (sent s) (received s) (roots s) x.

Definition init : state :=
  State M_run [] None [] false C_off L_off SdEmpty [] false None [] [] [] [].

(** [g.SetLimit(n)]: a negative [n] means no limit; otherwise [g.Go] blocks
    while [n] tasks are running. *)
Definition has_room (limit : Z) (running : nat) : Prop :=
  (limit < 0 ∨ Z.of_nat running < limit)%Z.

(** [errOnce]: the first error stays. *)
Definition first_err (g r : option error) : option error :=
  match g with Some e => Some e | None => r end.

Definition errNoSink : error :=
  errorString "either resultsChan or dupesChan must be provided".

(** After the map update of line 91 or 100: back to the loop head when
    nothing is left to send. *)
Definition after_send (out : list string) (m : gmap string (list string)) : consumer_pc :=
  match out with [] => C_range m | _ :: _ => C_send out m end.

Section system.

Variable defaults : Cfg → Cfg.                         (* c.defaults() *)
Variable lstat : string → PathError + DirEntry.        (* the file system *)
Variable c0 : Cfg.                                      (* the caller's Cfg *)
Variable caller : list string → bool.                   (* the receiver of dupesChan *)
Variable cl : call.

Definition cfg : Cfg := defaults c0.

(** One step of one goroutine, or the arrival of a signal.  A send on
    [dupesChan] blocks until the caller receives: [caller got] tells whether
    the caller, having received the paths [got], receives once more.  A signal
    that finds the channel full is dropped; one that arrives after
    [close(shutdown)] makes the runtime panic, and a run is followed up to
    there. *)
Inductive step : actor → state → state → Prop :=
(* run *)
| run_consumer s :                               (* lines 43-48 *)
    main s = M_run →
    dupesChan cl || resultsChan cl = true →
    step Main s (set_consumer (C_range ∅) (set_main M_shutdown s))
| run_sanity s :                                 (* lines 49-52 *)
    main s = M_run →
    dupesChan cl || resultsChan cl = false →
    step Main s (set_main (M_ret (Some errNoSink)) s)
| run_shutdown s :                               (* line 54 *)
    main s = M_shutdown →
    step Main s (set_listener L_notify (set_main M_search s))
| run_search s :                                 (* lines 55-57 *)
    main s = M_search →
    has_room (Workers cfg) (length (tasks s)) →
    step Main s
      (set_roots (roots s ++ [Path cfg])
        (set_tasks (tasks s ++ [search lstat (Path cfg) cfg]) (set_main M_wait s)))
| run_wait s :                                   (* line 59 *)
    main s = M_wait →
    tasks s = [] →
    step Main s (set_main (M_close (g_err s)) s)
| run_close s err :                              (* lines 60-61 *)
    main s = M_close err →
    step Main s (set_pairs_closed true (set_main (M_ret err) s))
| get_results s err res :                        (* line 68 *)
    cl = GetResults →
    main s = M_ret err →
    results s = Some res →
    step Main s (set_results None (set_main (M_got res err) s))
(* tasks of the group *)
| task_shuttingDown s l1 k l2 :
    tasks s = l1 ++ ShuttingDown k :: l2 →
    step Worker s
      (set_shutdown (shuttingDown (shutdown s)).2
        (set_tasks (l1 ++ k (shuttingDown (shutdown s)).1 :: l2) s))
| task_keyGen s l1 keyGen file k l2 :
    tasks s = l1 ++ CallKeyGen keyGen file k :: l2 →
    step Worker s (set_tasks (l1 ++ k (keyGen file) :: l2) s)
| task_send s l1 p k l2 :                        (* make(chan *pair, 500) *)
    tasks s = l1 ++ SendPair p k :: l2 →
    pairs_closed s = false →
    length (pairs s) < 500 →
    step Worker s
      (set_sent (sent s ++ [p])
        (set_pairs (pairs s ++ [p]) (set_tasks (l1 ++ k :: l2) s)))
| task_go s l1 t k l2 :
    tasks s = l1 ++ Go t k :: l2 →
    has_room (Workers cfg) (length (tasks s)) →
    step Worker s (set_tasks (l1 ++ k :: l2 ++ [t]) s)
| task_done s l1 r l2 :
    tasks s = l1 ++ Ret r :: l2 →
    step Worker s
      (set_finished (finished s ++ [r])
        (set_g_err (first_err (g_err s) r) (set_tasks (l1 ++ l2) s)))
(* consumePairs *)
| consume_recv s m p rest :                      (* lines 88-101 *)
    consumer s = C_range m →
    pairs s = p :: rest →
    step Aggregator s
      (set_received (received s ++ [p])
        (set_pairs rest
          (set_consumer
            (after_send (consumePair (dupesChan cl) m p).2
                        (consumePair (dupesChan cl) m p).1) s)))
| consume_send s x out m :                       (* lines 95, 97 *)
    consumer s = C_send (x :: out) m →
    caller (dupes s) = true →
    step Aggregator s
      (set_dupes (dupes s ++ [x]) (set_consumer (after_send out m) s))
| consume_end s m :                              (* lines 102-104 *)
    consumer s = C_range m →
    pairs s = [] →
    pairs_closed s = true →
    step Aggregator s
      (set_consumer (if dupesChan cl then C_close else C_results m) s)
| consume_close s :                              (* lines 105-106 *)
    consumer s = C_close →
    step Aggregator s (set_dupes_closed true (set_consumer C_done s))
| consume_results s m res :                      (* line 109 *)
    consumer s = C_results m →
    results s = None →
    processResults m res →
    step Aggregator s (set_results (Some res) (set_consumer C_done s))
(* gracefulShutdown *)
| shutdown_notify s :                            (* line 191 *)
    listener s = L_notify →
    step Listener s (set_listener L_recv s)
| shutdown_recv s :                              (* line 192 *)
    listener s = L_recv →
    shutdown s = SdSignal →
    step Listener s (set_shutdown SdEmpty (set_listener L_log s))
| shutdown_close s :                             (* lines 193-194 *)
    listener s = L_log →
    step Listener s (set_shutdown SdClosed (set_listener L_done s))
(* SIGINT or SIGTERM, once signal.Notify has registered the channel *)
| signal s :
    listener s = L_recv ∨ listener s = L_log →
    shutdown s = SdEmpty →
    step Signal s (set_shutdown SdSignal s).

Definition step_any (s s' : state) : Prop := ∃ a, step a s s'.

Definition reachable (s : state) : Prop := rtc step_any init s.

End system.

(** ** Notions used to state the properties *)

Definition has_sink (cl : call) : bool := dupesChan cl || resultsChan cl.

Definition phase (pc : main_pc) : nat :=
  match pc with
  | M_run => 0 | M_shutdown => 1 | M_search => 2 | M_wait => 3
  | M_close _ => 4 | M_ret _ => 5 | M_got _ _ => 6
  end.

(** The error [run] hands back, once it is past [g.Wait()]. *)
Definition run_err (pc : main_pc) : option (option error) :=
  match pc with
  | M_close e | M_ret e | M_got _ e => Some e
  | _ => None
  end.

(** The call has returned to its caller. *)
Definition returned (cl : call) (pc : main_pc) : Prop :=
  match cl, pc with
  | GetResults, M_got _ _ => True
  | StreamResults _, M_ret _ => True
  | _, _ => False
  end.

(** The first non-nil error of a sequence of task results. *)
Definition first_error (rs : list (option error)) : option error :=
  foldl first_err None rs.

Definition in_loop (pc : consumer_pc) : Prop :=
  match pc with C_range _ | C_send _ _ => True | _ => False end.

Definition past_loop (pc : consumer_pc) : Prop :=
  match pc with C_close | C_results _ | C_done => True | _ => False end.

(** Paths the aggregator has decided to send and has not sent yet. *)
Definition pending (pc : consumer_pc) : list string :=
  match pc with C_send out _ => out | _ => [] end.

Definition held_map (pc : consumer_pc) : option (gmap string (list string)) :=
  match pc with
  | C_range m | C_send _ m | C_results m => Some m
  | _ => None
  end.

(** What holds in every state of every run. *)
Record invariant (cl : call) (c : Cfg) (s : state) : Prop := {
  inv_early :
    phase (main s) < 3 →
    tasks s = [] ∧ sent s = [] ∧ finished s = [] ∧ roots s = [] ∧ g_err s = None;
  inv_nosink :
    has_sink cl = false →
    (main s = M_run ∨ main s = M_ret (Some errNoSink)) ∧
    tasks s = [] ∧ sent s = [] ∧ finished s = [] ∧ roots s = [] ∧
    listener s = L_off;
  inv_late : 4 ≤ phase (main s) → tasks s = [];
  inv_closed : pairs_closed s = true ↔ 5 ≤ phase (main s) ∧ has_sink cl = true;
  inv_fifo : sent s = received s ++ pairs s;
  inv_cap : length (pairs s) ≤ 500;
  inv_roots : 3 ≤ phase (main s) → has_sink cl = true → roots s = [Path c];
  inv_err : g_err s = first_error (finished s);
  inv_run_err :
    ∀ e, run_err (main s) = Some e → has_sink cl = true →
         e = first_error (finished s);
  inv_off : consumer s = C_off ↔ phase (main s) = 0 ∨ has_sink cl = false;
  inv_stream :
    dupes s ++ pending (consumer s) =
    if dupesChan cl then streamed (received s) else [];
  inv_map :
    ∀ m, held_map (consumer s) = Some m → m = consumed (dupesChan cl) (received s);
  inv_send : ∀ m, consumer s ≠ C_send [] m;
  inv_past : past_loop (consumer s) → pairs s = [] ∧ pairs_closed s = true;
  inv_mode :
    (consumer s = C_close → dupesChan cl = true) ∧
    (∀ m, consumer s = C_results m → dupesChan cl = false);
  inv_dupes_closed :
    dupes_closed s = true ↔ consumer s = C_done ∧ dupesChan cl = true;
  inv_results :
    ∀ res, results s = Some res →
           consumer s = C_done ∧ dupesChan cl = false ∧ phase (main s) < 6 ∧
           processResults (consumed false (received s)) res;
  inv_done :
    consumer s = C_done → dupesChan cl = false →
    is_Some (results s) ∨ phase (main s) = 6;
  inv_got :
    ∀ res e, main s = M_got res e →
             cl = GetResults ∧ consumer s = C_done ∧ results s = None ∧
             processResults (consumed false (received s)) res;
}.

(** An upper bound on the number of steps a state has left. *)
Fixpoint psize (p : prog) : nat :=
  match p with
  | Ret _ => 1
  | ShuttingDown k => 2 + max (psize (k true)) (psize (k false))
  | CallKeyGen keyGen file k => 1 + psize (k (keyGen file))
  | SendPair _ k => 5 + psize k
  | Go t k => 1 + psize t + psize k
  end.

Definition main_fuel (walk : nat) (pc : main_pc) : nat :=
  match pc with
  | M_run => 12 + walk | M_shutdown => 9 + walk | M_search => 4 + walk
  | M_wait => 3 | M_close _ => 2 | M_ret _ => 1 | M_got _ _ => 0
  end.

Definition consumer_fuel (pc : consumer_pc) : nat :=
  match pc with
  | C_off => 0 | C_range _ => 2 | C_send out _ => length out + 2
  | C_close => 1 | C_results _ => 1 | C_done => 0
  end.

Definition listener_fuel (pc : listener_pc) : nat :=
  match pc with
  | L_off => 0 | L_notify => 4 | L_recv => 3 | L_log => 1 | L_done => 0
  end.

Definition shutdown_fuel (ch : shutdown_chan) : nat :=
  match ch with SdEmpty => 1 | SdSignal => 0 | SdClosed => 0 end.

Definition fuel (walk : nat) (s : state) : nat :=
  main_fuel walk (main s) + sum_list_with psize (tasks s) + 3 * length (pairs s) +
  consumer_fuel (consumer s) + listener_fuel (listener s) +
  shutdown_fuel (shutdown s).

(** In streaming mode the caller keeps receiving from [dupesChan], whatever
    it has received so far. *)
Definition keeps_receiving (cl : call) (caller : list string → bool) : Prop :=
  dupesChan cl = true → ∀ got, caller got = true.

(** The pool has drained: the walk was submitted and no task is left, so
    that [g.Wait()] can return or has returned. *)
Definition drained (s : state) : Prop := 3 ≤ phase (main s) ∧ tasks s = [].

(** The [os.ReadDir] errors a walk meets when nothing is shutting down, in
    the depth-first order of the walk. *)
Definition walk_errors (c : Cfg) (file : string) (d : DirEntry) : list PathError :=
  omap (λ d', (ReadDir d').2) (walked_dirs c file d).

(** The outcome of one program followed by another. *)
Definition then_outcome (o o' : outcome) : outcome :=
  Outcome (result o') (spawned o ++ spawned o') (emitted o ++ emitted o')
          (keyed o ++ keyed o').

(** Nothing done, nil returned. *)
Definition idle : outcome := Outcome None [] [] [].

(** ** Concrete runs *)

(** Modelled from the spec: [Cfg.defaults] is declared outside
    [dupescout.go].  The specification says of it that the worker limit
    "defaults to the host's available parallelism if unspecified or
    non-positive"; [GOMAXPROCS] stands for that parallelism. *)
Definition Cfg_defaults (GOMAXPROCS : Z) (c : Cfg) : Cfg :=
  if decide (Workers c ≤ 0)%Z then
    {| Path := Path c; Workers := GOMAXPROCS; KeyGenerator := KeyGenerator c;
       skipDir := skipDir c; skipFile := skipFile c |}
  else c.

(** A directory [root] with two regular files of one byte each. *)
Definition ex_file (name : string) : DirEntry :=
  Entry name ModeRegular (inr 1%Z) [] None.

Definition ex_root : DirEntry :=
  Entry "root" ModeDir (inr 0%Z) [ex_file "a"; ex_file "b"] None.

Definition ex_lstat (file : string) : PathError + DirEntry :=
  if decide (file = "root") then inr ex_root
  else inl (mkPathError "lstat" file 2).

(** A key generator that gives every file the key ["k"]. *)
Definition ex_keyGen : KeyGeneratorFunc := λ _, ("k", None).

Definition ex_cfg (workers : Z) : Cfg :=
  {| Path := "root"; Workers := workers; KeyGenerator := ex_keyGen;
     skipDir := λ _, false; skipFile := λ _, false |}.

(** A caller that receives every path sent to [dupesChan], and one that
    never receives. *)
Definition receiving : list string → bool := λ _, true.

Definition deaf : list string → bool := λ _, false.

(** The program left of a task after its pending cancellation check got the
    answer [down]. *)
Definition answered (down : bool) (p : prog) : prog :=
  match p with ShuttingDown k => k down | _ => p end.

(** The end of a streaming search of [root] with four workers. *)
Definition ex_stream_end : state :=
  State (M_ret None) [] None [] true C_done L_notify SdEmpty
        ["root/a"; "root/b"] true None
        [Pair "k" "root/a"; Pair "k" "root/b"]
        [Pair "k" "root/a"; Pair "k" "root/b"]
        ["root"] [None; None; None].

(** The end of a batch search of [root] with four workers. *)
Definition ex_batch_end : state :=
  State (M_got (mk_slice ["root/a"; "root/b"]) None) [] None [] true C_done
        L_notify SdEmpty [] false None
        [Pair "k" "root/a"; Pair "k" "root/b"]
        [Pair "k" "root/a"; Pair "k" "root/b"]
        ["root"] [None; None; None].

(** A streaming search of [root] right after [run] has started the
    aggregator, the signal listener and the walk. *)
Definition ex_launched : state :=
  State M_wait [search ex_lstat "root" (ex_cfg 4)] None [] false (C_range ∅)
        L_notify SdEmpty [] false None [] [] ["root"] [].

(** A search of [root] with one worker, after an interrupt: the walk is at
    its [g.Go] for the file [a]. *)
Definition ex_blocked_walk : prog :=
  answered false (answered false (search ex_lstat "root" (ex_cfg 1))).

Definition ex_deadlock : state :=
  State M_wait [ex_blocked_walk] None [] false (C_range ∅) L_done SdClosed
        [] false None [] [] ["root"] [].

(** A directory [root] whose only entry is a regular file that cannot be
    stat'ed. *)
Definition ex_vanished : DirEntry :=
  Entry "root" ModeDir (inr 0%Z)
        [Entry "a" ModeRegular (inl (mkPathError "lstat" "root/a" 2)) [] None]
        None.

Definition ex_vanished_end : state :=
  State (M_ret None) [] None [] true C_done L_notify SdEmpty [] true None
        [] [] ["root"] [None].

(** A key generator that returns an empty key and no error, and one that
    fails with an error of its own. *)
Definition ex_keyGen_empty : KeyGeneratorFunc := λ _, ("", None).

Definition ex_keyGen_failing : KeyGeneratorFunc := λ file,
  ("", Some (errorString ("key generator returned an empty key for path: " +:+ file))).

(** Four pairs, two keys with two paths each. *)
Definition ex_pairs : list pair :=
  [Pair "k1" "a"; Pair "k1" "c"; Pair "k2" "b"; Pair "k2" "d"].

(** [StreamResults] called with a nil channel, after [run] has returned. *)
Definition ex_no_sink_end : state :=
  State (M_ret (Some errNoSink)) [] None [] false C_off L_off SdEmpty
        [] false None [] [] [] [].

(** The streaming search of [root] with a caller that never receives, after
    [run] has returned: the aggregator is at its first send. *)
Definition ex_unreceived : state :=
  State (M_ret None) [] None [] true
        (C_send ["root/a"; "root/b"]
                (consumed true [Pair "k" "root/a"; Pair "k" "root/b"]))
        L_notify SdEmpty [] false None
        [Pair "k" "root/a"; Pair "k" "root/b"]
        [Pair "k" "root/a"; Pair "k" "root/b"]
        ["root"] [None; None; None].

(** A directory [root] with a single regular file of one byte. *)
Definition ex_single : DirEntry :=
  Entry "root" ModeDir (inr 0%Z) [ex_file "a"] None.

(** A batch search of it with one worker and no signal: the walk is at its
    [g.Go] for the file. *)
Definition ex_stuck : state :=
  State M_wait [answered false (answered false (search (λ _, inr ex_single) "root" (ex_cfg 1)))]
        None [] false (C_range ∅) L_notify SdEmpty [] false None [] [] ["root"] [].

(** The end of a batch search of it with four workers and a key generator
    that returns an empty key: the search ends with an error. *)
Definition ex_cfg_empty : Cfg :=
  {| Path := "root"; Workers := 4; KeyGenerator := ex_keyGen_empty;
     skipDir := λ _, false; skipFile := λ _, false |}.

Definition ex_empty_key_error : error :=
  Errorf "key generator returned an empty key for path: " "root/a".

Definition ex_batch_error_end : state :=
  State (M_got (mk_slice []) (Some ex_empty_key_error)) [] (Some ex_empty_key_error)
        [] true C_done L_notify SdEmpty [] false None [] [] ["root"]
        [None; Some ex_empty_key_error].

(** The paths of the groups of two or more in a list of map entries. *)
Definition duplicates (enum : list (string * list string)) : list string :=
  concat (snd <$> filter (λ kv, 1 < length kv.2) enum).

(** The files a walk hands to [producePair] when nothing is shutting down
    and every directory can be read, in the order of the walk: the regular
    files that [skipFile] keeps, whose [Info()] succeeds with a size other
    than zero, outside the directories [skipDir] prunes. *)
Fixpoint accepted (c : Cfg) (file : string) (d : DirEntry) : list string :=
  match d with
  | Entry _ _ info dirs _ =>
      if IsDir d then
        if skipDir c file then []
        else flat_map (λ d1, accepted c (Join file (Name d1)) d1) dirs
      else if IsRegular d && negb (skipFile c file) then
        match info with
        | inr size => if decide (size = 0%Z) then [] else [file]
        | inl _ => []
        end
      else []
  end.

(** [c] with no directory pruned. *)
Definition unpruned (c : Cfg) : Cfg :=
  {| Path := Path c; Workers := Workers c; KeyGenerator := KeyGenerator c;
     skipDir := λ _, false; skipFile := skipFile c |}.

(** The files at or below [c.Path] that pass the checks [search] makes on a
    file: regular, kept by [skipFile], with an [Info()] that succeeds and a
    size other than zero. *)
Definition candidates (lstat : string → PathError + DirEntry) (c : Cfg) : list string :=
  match lstat (Path c) with
  | inl _ => []
  | inr d => accepted (unpruned c) (Path c) d
  end.

(** The pair carries the key that [c.KeyGenerator] returns for its path,
    returned without an error and not empty. *)
Definition keyed_by (c : Cfg) (q : pair) : Prop :=
  key q ≠ "" ∧ KeyGenerator c (path q) = (key q, None).

(** Every pair the program can send, itself or by a task it starts,
    whatever its cancellation checks answer, satisfies [P]. *)
Fixpoint sends_only (P : pair → Prop) (p : prog) : Prop :=
  match p with
  | Ret _ => True
  | ShuttingDown k => ∀ down, sends_only P (k down)
  | CallKeyGen keyGen file k => sends_only P (k (keyGen file))
  | SendPair q k => P q ∧ sends_only P k
  | Go t k => sends_only P t ∧ sends_only P k
  end.

(** A pair for a candidate file, with the key of that file. *)
Definition well_keyed (lstat : string → PathError + DirEntry) (c : Cfg) (q : pair) : Prop :=
  path q ∈ candidates lstat c ∧ keyed_by c q.

(** The program never calls [g.Go]. *)
Fixpoint go_free (p : prog) : Prop :=
  match p with
  | Ret _ => True
  | ShuttingDown k => ∀ down, go_free (k down)
  | CallKeyGen keyGen file k => go_free (k (keyGen file))
  | SendPair _ k => go_free k
  | Go _ _ => False
  end.

(** The tasks the program hands to [g.Go] never call [g.Go] themselves. *)
Fixpoint go_flat (p : prog) : Prop :=
  match p with
  | Ret _ => True
  | ShuttingDown k => ∀ down, go_flat (k down)
  | CallKeyGen keyGen file k => go_flat (k (keyGen file))
  | SendPair _ k => go_flat k
  | Go t k => go_free t ∧ go_flat k
  end.

(** Only the oldest task of the pool may call [g.Go]. *)
Definition pool_flat (ts : list prog) : Prop :=
  match ts with
  | [] => True
  | w :: rest => go_flat w ∧ Forall go_free rest
  end.

(** * Proofs *)

(** ** Facts about the aggregation core *)

Section aggregation.

Implicit Types (m : gmap string (list string)) (p : pair) (ps hs : list pair).
Implicit Types (k : string) (out : list string).

Lemma group_nil k : group k [] = [].
Proof. reflexivity. Qed.

Lemma group_snoc k hs p :
  group k (hs ++ [p]) = group k hs ++ (if decide (key p = k) then [path p] else []).
Proof.
  unfold group. rewrite filter_app, fmap_app. f_equal.
  rewrite filter_cons, filter_nil. by case_decide.
Qed.

Lemma elem_of_group k hs x :
  x ∈ group k hs ↔ ∃ p, p ∈ hs ∧ key p = k ∧ path p = x.
Proof.
  unfold group. rewrite list_elem_of_fmap. split.
  - intros (p & -> & Hp). apply list_elem_of_filter in Hp as [? ?]. eauto.
  - intros (p & ? & ? & <-). exists p. split; [done|].
    apply list_elem_of_filter. done.
Qed.

Lemma group_subseteq k hs : group k hs ⊆ path <$> hs.
Proof.
  intros x (p & ? & _ & <-)%elem_of_group. apply list_elem_of_fmap. eauto.
Qed.

(** With pairwise distinct paths a path belongs to the group of one key. *)
Lemma group_disjoint k k' hs x :
  NoDup (path <$> hs) → x ∈ group k hs → x ∈ group k' hs → k = k'.
Proof.
  intros Hnd (p & Hp & <- & <-)%elem_of_group (q & Hq & <- & Hpq)%elem_of_group.
  apply list_elem_of_lookup in Hp as [i Hi], Hq as [j Hj].
  assert (i = j) as ->; [|congruence].
  eapply NoDup_lookup; [exact Hnd| |]; rewrite list_lookup_fmap.
  - by rewrite Hi.
  - rewrite Hj. simpl. by rewrite Hpq.
Qed.

Lemma tracks_empty : tracks [] ∅.
Proof. intros k. by rewrite lookup_empty. Qed.

Lemma consumePair_tracks streaming hs m p :
  tracks hs m → tracks (hs ++ [p]) (consumePair streaming m p).1.
Proof.
  intros Hm k. rewrite group_snoc. unfold consumePair, MapOf.Load, MapOf.Store.
  pose proof (Hm (key p)) as Hk. pose proof (Hm k) as Hk'.
  destruct (decide (key p = k)) as [<-|Hne].
  - rewrite Hk. destruct (decide (group (key p) hs = [])) as [Hg|Hg]; simpl;
      rewrite lookup_insert_eq; case_decide as Hg'; try done.
    + by rewrite Hg in Hg'.
    + by rewrite Hg.
    + by apply app_eq_nil in Hg' as [_ ?].
  - rewrite app_nil_r.
    destruct (m !! key p); simpl; by rewrite lookup_insert_ne.
Qed.

Lemma consumePair_emission hs m p :
  tracks hs m → (consumePair true m p).2 = emission hs p.
Proof.
  intros Hm. unfold consumePair, emission, MapOf.Load.
  rewrite (Hm (key p)). by destruct (group (key p) hs) as [|? [|? ?]].
Qed.

Lemma consumePair_batch_silent m p : (consumePair false m p).2 = [].
Proof. unfold consumePair. by destruct (MapOf.Load m (key p)). Qed.

Lemma consumeLoop_snoc streaming st ps p :
  consumeLoop streaming st (ps ++ [p]) =
  let st' := consumeLoop streaming st ps in
  let r := consumePair streaming st'.1 p in (r.1, st'.2 ++ r.2).
Proof. unfold consumeLoop. by rewrite foldl_app. Qed.

Lemma consumed_tracks streaming ps : tracks ps (consumed streaming ps).
Proof.
  induction ps as [|p ps IH] using rev_ind; [apply tracks_empty|].
  unfold consumed. rewrite consumeLoop_snoc. simpl.
  by apply consumePair_tracks.
Qed.

Lemma streamed_snoc hs p : streamed (hs ++ [p]) = streamed hs ++ emission hs p.
Proof.
  unfold streamed. rewrite consumeLoop_snoc. simpl. f_equal.
  apply consumePair_emission, (consumed_tracks true).
Qed.

Lemma consumed_lookup streaming ps k :
  consumed streaming ps !! k =
  if decide (group k ps = []) then None else Some (group k ps).
Proof. apply consumed_tracks. Qed.

(** The map built does not depend on the mode. *)
Lemma consumed_mode ps : consumed true ps = consumed false ps.
Proof. apply map_eq. intros k. by rewrite !consumed_lookup. Qed.

Lemma emission_subseteq hs p : emission hs p ⊆ path <$> (hs ++ [p]).
Proof.
  unfold emission. rewrite fmap_app. simpl.
  pose proof (group_subseteq (key p) hs) as Hsub.
  destruct (group (key p) hs) as [|f [|? ?]]; intros x Hx.
  - by apply elem_of_nil in Hx.
  - apply elem_of_app. apply elem_of_cons in Hx as [->|Hx].
    + left. apply Hsub. by left.
    + by right.
  - apply elem_of_app. by right.
Qed.

Lemma streamed_subseteq ps : streamed ps ⊆ path <$> ps.
Proof.
  induction ps as [|p ps IH] using rev_ind.
  - done.
  - rewrite streamed_snoc. intros x [Hx|Hx]%elem_of_app.
    + rewrite fmap_app. apply elem_of_app. left. by apply IH.
    + by apply emission_subseteq.
Qed.

(** The member of a group of one has not been sent yet. *)
Lemma streamed_singleton_pending ps k f :
  NoDup (path <$> ps) → group k ps = [f] → f ∉ streamed ps.
Proof.
  induction ps as [|p ps IH] using rev_ind; [done|].
  rewrite fmap_app. simpl. intros Hnd.
  apply NoDup_app in Hnd as (Hnd & Hfresh & _).
  assert (path p ∉ path <$> ps) as Hp.
  { intros Hin. eapply Hfresh; [exact Hin|]. by left. }
  rewrite group_snoc, streamed_snoc. intros Hg Hin.
  apply elem_of_app in Hin as [Hin|Hin].
  - case_decide as Hk.
    + destruct (group k ps) as [|g gs] eqn:Hgk.
      * simpl in Hg. injection Hg as <-. by apply Hp, streamed_subseteq.
      * destruct gs; discriminate.
    + rewrite app_nil_r in Hg. by eapply IH.
  - unfold emission in Hin. case_decide as Hk.
    + subst k. destruct (group (key p) ps) as [|g [|? ?]]; try discriminate.
      by apply elem_of_nil in Hin.
    + rewrite app_nil_r in Hg.
      assert (f ∈ group k ps) as Hfk by (rewrite Hg; by left).
      assert (f ≠ path p) as Hfp.
      { intros ->. by apply Hp, (group_subseteq k). }
      destruct (group (key p) ps) as [|g [|? ?]] eqn:Hgp.
      * by apply elem_of_nil in Hin.
      * apply elem_of_cons in Hin as [->|Hin].
        -- apply Hk. eapply group_disjoint; [exact Hnd| |exact Hfk].
           rewrite Hgp. by left.
        -- by apply list_elem_of_singleton in Hin.
      * by apply list_elem_of_singleton in Hin.
Qed.

Lemma streamed_NoDup ps : NoDup (path <$> ps) → NoDup (streamed ps).
Proof.
  induction ps as [|p ps IH] using rev_ind; [intros; apply NoDup_nil_2|].
  rewrite fmap_app. simpl. intros Hnd.
  pose proof Hnd as Hnd'.
  apply NoDup_app in Hnd as (Hnd & Hfresh & _).
  assert (path p ∉ path <$> ps) as Hp.
  { intros Hin. eapply Hfresh; [exact Hin|]. by left. }
  assert (path p ∉ streamed ps) as Hps.
  { intros Hin. by apply Hp, streamed_subseteq. }
  rewrite streamed_snoc. apply NoDup_app. split; [by apply IH|].
  unfold emission.
  destruct (group (key p) ps) as [|f [|? ?]] eqn:Hg.
  - split; [intros ? ? []%elem_of_nil | apply NoDup_nil_2].
  - split.
    + intros x Hx [->|Hin]%elem_of_cons.
      * by eapply streamed_singleton_pending.
      * apply list_elem_of_singleton in Hin as ->. done.
    + apply NoDup_cons. split; [|apply NoDup_singleton].
      intros ->%list_elem_of_singleton.
      apply Hp, (group_subseteq (key p)). rewrite Hg. by left.
  - split; [|apply NoDup_singleton].
    intros x Hx ->%list_elem_of_singleton. done.
Qed.

End aggregation.

(** ** processResults *)

Section results.

Implicit Types (m : gmap string (list string)) (enum : list (string * list string)).

Lemma processEntries_from acc enum :
  foldl (λ res kv, if decide (1 < length kv.2) then append res kv.2 else res)
        (mk_slice acc) enum =
  mk_slice (acc ++ concat (snd <$> filter (λ kv, 1 < length kv.2) enum)).
Proof.
  revert acc. induction enum as [|kv enum IH]; intros acc; simpl.
  - by rewrite app_nil_r.
  - rewrite filter_cons. case_decide; simpl.
    + by rewrite IH, app_assoc.
    + apply IH.
Qed.

Lemma processEntries_spec enum :
  processEntries enum =
  mk_slice (concat (snd <$> filter (λ kv, 1 < length kv.2) enum)).
Proof. apply (processEntries_from []). Qed.

Lemma processResults_total m : ∃ res, processResults m res.
Proof.
  exists (processEntries (map_to_list m)), (map_to_list m).
  split; [unfold MapOf.Range|]; reflexivity.
Qed.

Lemma processResults_non_nil m res : processResults m res → res ≠ nil_slice.
Proof. intros (enum & _ & ->). by rewrite processEntries_spec. Qed.

Lemma Range_lookup m enum k v : MapOf.Range m enum → (k, v) ∈ enum ↔ m !! k = Some v.
Proof. unfold MapOf.Range. intros ->. apply elem_of_map_to_list. Qed.

Lemma Range_NoDup m enum : MapOf.Range m enum → NoDup enum.*1.
Proof. unfold MapOf.Range. intros ->. apply NoDup_fst_map_to_list. Qed.

Lemma filter_none {A} (P : A → Prop) `{∀ x, Decision (P x)} (l : list A) :
  (∀ x, x ∈ l → ¬ P x) → filter P l = [].
Proof.
  induction l as [|x l IH]; intros Hl; [done|].
  rewrite filter_cons. case_decide as HP.
  - exfalso. eapply Hl; [by left | done].
  - apply IH. intros y Hy. apply Hl. by right.
Qed.

(** Without a group of two or more, the result is the empty slice the
    function starts from. *)
Lemma processResults_no_dupes m res :
  (∀ k v, m !! k = Some v → length v ≤ 1) →
  processResults m res → res = mk_slice [].
Proof.
  intros Hm (enum & Hr & ->). rewrite processEntries_spec. f_equal.
  rewrite filter_none; [done|].
  intros [k v] Hin. simpl.
  apply (Range_lookup _ _ _ _ Hr), Hm in Hin. lia.
Qed.

(** C3, as the code has it: the batch result is the concatenation of whole
    groups, one for each key that was consumed with two paths or more and
    none for the other keys; within a group the paths are in the order they
    were consumed; the groups come in the order [Range] enumerates the map,
    each key once. *)
Theorem C3_batch_groups (ps : list pair) (res : slice) :
  processResults (consumed false ps) res →
  ∃ keys, NoDup keys ∧ (∀ k, k ∈ keys ↔ 1 < length (group k ps)) ∧
          res = mk_slice (concat ((λ k, group k ps) <$> keys)).
Proof.
  intros (enum & Hr & ->). rewrite processEntries_spec.
  set (dup := filter (λ kv : string * list string, 1 < length kv.2) enum).
  assert (∀ k v, (k, v) ∈ enum ↔ v = group k ps ∧ v ≠ []) as Hin.
  { intros k v. rewrite (Range_lookup _ _ _ _ Hr), consumed_lookup.
    case_decide as Hg; split.
    - done.
    - intros [-> Hne]. done.
    - intros [= <-]. done.
    - intros [-> _]. done. }
  assert (∀ k v, (k, v) ∈ dup ↔ v = group k ps ∧ 1 < length v) as Hdup.
  { intros k v. unfold dup. rewrite list_elem_of_filter, Hin. simpl.
    split; [intros (Hl & -> & _); done|]. intros [-> Hl]. split_and!; [done..|].
    intros Hnil. rewrite Hnil in Hl. simpl in Hl. lia. }
  exists dup.*1. split_and!.
  - eapply sublist_NoDup; [exact (Range_NoDup _ _ Hr)|].
    apply fmap_sublist, sublist_filter.
  - intros k. rewrite list_elem_of_fmap. split.
    + intros ([k' v] & -> & Hkv). by apply Hdup in Hkv as [-> ?].
    + intros Hl. exists (k, group k ps). split; [done|]. by apply Hdup.
  - f_equal. f_equal. rewrite <-list_fmap_compose.
    apply list_fmap_ext. intros i [k v] Hi%list_elem_of_lookup_2.
    by apply Hdup in Hi as [-> _].
Qed.

End results.

(** ** Proof steps shared by the case analyses on [step] *)

Lemma tasks_not_nil {A} (l1 l2 : list A) x : l1 ++ x :: l2 ≠ [].
Proof. by destruct l1. Qed.

Ltac nonnil :=
  match goal with
  | H : _ ++ _ :: _ = [] |- _ => by destruct (tasks_not_nil _ _ _ H)
  | H : _ ++ [_] = [] |- _ => by destruct (tasks_not_nil _ _ _ H)
  | H : [] = _ ++ _ :: _ |- _ => by destruct (tasks_not_nil _ _ _ (eq_sym H))
  end.

Ltac rw :=
  repeat match goal with
    | H : main _ = _ |- _ => rewrite H in *
    | H : consumer _ = _ |- _ => rewrite H in *
    | H : pairs_closed _ = _ |- _ => rewrite H in *
    | H : results _ = _ |- _ => rewrite H in *
    | H : pairs _ = _ |- _ => rewrite H in *
    | H : tasks _ = _ |- _ => rewrite H in *
    | H : listener _ = _ |- _ => rewrite H in *
    end; simpl in *.

Ltac leaf := simplify_eq/=; try nonnil; try done; try congruence; try lia.

Ltac fwd :=
  repeat match goal with
  | H : _ ↔ _ |- _ => destruct H
  | H : ?A → _ |- _ =>
      let Ha := fresh in
      assert A as Ha by (simpl; repeat split; first [lia | done | congruence]);
      specialize (H Ha); clear Ha
  end.

Ltac rw_hist :=
  repeat match goal with
    | H : _ ∧ _ |- _ => destruct H
    | H : sent _ = _ |- _ => rewrite H in *
    | H : finished _ = _ |- _ => rewrite H in *
    | H : roots _ = _ |- _ => rewrite H in *
    | H : g_err _ = _ |- _ => rewrite H in *
    | H : dupes _ = _ |- _ => rewrite H in *
    | H : dupes_closed _ = _ |- _ => rewrite H in *
    end.

Ltac crush := intros; fwd; rw_hist; leaf; try (intuition leaf; fail).

Ltac split_send :=
  try match goal with |- context [after_send ?o ?m] =>
    let E := fresh "Eout" in destruct o eqn:E; simpl end.

Ltac know_off Ho s :=
  try (assert (consumer s = C_off) as Hc by (apply Ho; by left);
       rewrite Hc in *; simpl in * ).

Ltac know_mode Hmode :=
  try (pose proof (proj1 Hmode eq_refl)); try (pose proof (proj2 Hmode _ eq_refl)).

(** ** The invariant of the running system *)

Section invariant.

Variable defaults : Cfg → Cfg.
Variable lstat : string → PathError + DirEntry.
Variable c0 : Cfg.
Variable caller : list string → bool.
Variable cl : call.

#[local] Abbreviation step := (step defaults lstat c0 caller cl).
#[local] Abbreviation step_any := (step_any defaults lstat c0 caller cl).
#[local] Abbreviation reachable := (reachable defaults lstat c0 caller cl).
#[local] Abbreviation cfg := (cfg defaults c0).
#[local] Abbreviation invariant := (invariant cl cfg).

Lemma first_error_snoc rs r : first_error (rs ++ [r]) = first_err (first_error rs) r.
Proof. unfold first_error. by rewrite foldl_app. Qed.

Lemma consumed_snoc streaming hs p :
  consumed streaming (hs ++ [p]) = (consumePair streaming (consumed streaming hs) p).1.
Proof. unfold consumed. by rewrite consumeLoop_snoc. Qed.

Lemma streamed_snoc_map hs p :
  streamed (hs ++ [p]) = streamed hs ++ (consumePair true (consumed true hs) p).2.
Proof. unfold streamed, consumed. by rewrite consumeLoop_snoc. Qed.

Lemma pending_after_send out m : pending (after_send out m) = out.
Proof. by destruct out. Qed.

Lemma held_map_after_send out m : held_map (after_send out m) = Some m.
Proof. by destruct out. Qed.

Lemma after_send_in_loop out m : in_loop (after_send out m).
Proof. by destruct out. Qed.

Lemma invariant_init : invariant init.
Proof.
  constructor; simpl; try done; try (intros; lia);
    try (intros; split_and!; done || lia || (by left)).
  - by destruct (dupesChan cl).
  - split; [done|]. by intros [? _].
Qed.

Lemma step_early a s s' :
  invariant s → step a s s' →
  phase (main s') < 3 →
  tasks s' = [] ∧ sent s' = [] ∧ finished s' = [] ∧ roots s' = [] ∧ g_err s' = None.
Proof.
  intros Hinv Hstep. pose proof (inv_early _ _ _ Hinv) as He. clear Hinv.
  destruct Hstep; simpl in *; rw; crush.
Qed.

Lemma step_nosink a s s' :
  invariant s → step a s s' →
  has_sink cl = false →
    (main s' = M_run ∨ main s' = M_ret (Some errNoSink)) ∧
    tasks s' = [] ∧ sent s' = [] ∧ finished s' = [] ∧ roots s' = [] ∧
    listener s' = L_off.
Proof.
  intros Hinv Hstep. pose proof (inv_nosink _ _ _ Hinv) as He.
  pose proof (inv_early _ _ _ Hinv) as He'. clear Hinv. unfold has_sink in *.
  destruct Hstep; simpl in *; rw; crush.
Qed.

Lemma step_late a s s' :
  invariant s → step a s s' → 4 ≤ phase (main s') → tasks s' = [].
Proof.
  intros Hinv Hstep. pose proof (inv_late _ _ _ Hinv) as He.
  pose proof (inv_early _ _ _ Hinv) as He'. clear Hinv.
  destruct Hstep; simpl in *; rw; crush.
Qed.

Lemma step_closed a s s' :
  invariant s → step a s s' →
  pairs_closed s' = true ↔ 5 ≤ phase (main s') ∧ has_sink cl = true.
Proof.
  intros Hinv Hstep. pose proof (inv_closed _ _ _ Hinv) as He.
  pose proof (inv_nosink _ _ _ Hinv) as Hn. clear Hinv. unfold has_sink in *.
  destruct (dupesChan cl || resultsChan cl) eqn:Hsink;
    destruct Hstep; simpl in *; rw; crush.
Qed.

Lemma step_fifo a s s' :
  invariant s → step a s s' → sent s' = received s' ++ pairs s'.
Proof.
  intros Hinv Hstep. pose proof (inv_fifo _ _ _ Hinv) as He. clear Hinv.
  destruct Hstep; simpl in *; rw; rewrite ?He, <-?app_assoc; crush.
Qed.

Lemma step_cap a s s' :
  invariant s → step a s s' → length (pairs s') ≤ 500.
Proof.
  intros Hinv Hstep. pose proof (inv_cap _ _ _ Hinv) as He. clear Hinv.
  destruct Hstep; simpl in *; rw; rewrite ?length_app; simpl; try lia.
Qed.

Lemma step_roots a s s' :
  invariant s → step a s s' →
  3 ≤ phase (main s') → has_sink cl = true → roots s' = [Path cfg].
Proof.
  intros Hinv Hstep. pose proof (inv_roots _ _ _ Hinv) as He.
  pose proof (inv_early _ _ _ Hinv) as He'.
  pose proof (inv_nosink _ _ _ Hinv) as Hn. clear Hinv. unfold has_sink in *.
  destruct Hstep; simpl in *; rw; crush.
Qed.

Lemma step_err a s s' :
  invariant s → step a s s' → g_err s' = first_error (finished s').
Proof.
  intros Hinv Hstep. pose proof (inv_err _ _ _ Hinv) as He. clear Hinv.
  destruct Hstep; simpl in *; rw; rewrite ?first_error_snoc; crush.
Qed.

Lemma run_err_phase pc e : run_err pc = Some e → 4 ≤ phase pc.
Proof. destruct pc; simpl; intros; simplify_eq; lia. Qed.

Lemma step_run_err a s s' :
  invariant s → step a s s' →
  ∀ e, run_err (main s') = Some e → has_sink cl = true →
       e = first_error (finished s').
Proof.
  intros Hinv Hstep. pose proof (inv_run_err _ _ _ Hinv) as He.
  pose proof (inv_err _ _ _ Hinv) as He'.
  pose proof (inv_late _ _ _ Hinv) as Hl. clear Hinv. unfold has_sink in *.
  destruct Hstep; simpl in *; try assumption;
    try (intros e Hr Hs; apply run_err_phase, Hl in Hr; rewrite Hr in *; nonnil);
    rw; crush; by apply He.
Qed.

Lemma step_off a s s' :
  invariant s → step a s s' →
  consumer s' = C_off ↔ phase (main s') = 0 ∨ has_sink cl = false.
Proof.
  intros Hinv Hstep. pose proof (inv_off _ _ _ Hinv) as He.
  pose proof (inv_nosink _ _ _ Hinv) as Hn. clear Hinv. unfold has_sink in *.
  destruct cl as [|[]]; destruct Hstep; simpl in *; rw;
    try match goal with |- context [after_send ?o ?m] => destruct o; simpl end; crush.
Qed.

Lemma step_stream a s s' :
  invariant s → step a s s' →
  dupes s' ++ pending (consumer s') =
  if dupesChan cl then streamed (received s') else [].
Proof.
  intros Hinv Hstep. pose proof (inv_stream _ _ _ Hinv) as He.
  pose proof (inv_map _ _ _ Hinv) as Hm.
  pose proof (inv_off _ _ _ Hinv) as Ho. clear Hinv.
  destruct cl as [|[]]; destruct Hstep; simpl in *; try assumption; rw;
    rewrite ?pending_after_send, ?consumePair_batch_silent, ?app_nil_r in *;
    try done;
    try (rewrite <-app_assoc; exact He);
    try (assert (consumer s = C_off) as Hc by (apply Ho; by left);
         rewrite Hc in *; simpl in *; by rewrite app_nil_r in He).
  rewrite streamed_snoc_map, <-(Hm m eq_refl), <-He. done.
Qed.

Lemma early_received s :
  invariant s → phase (main s) < 3 → received s = [] ∧ pairs s = [].
Proof.
  intros Hinv Hp. destruct (inv_early _ _ _ Hinv Hp) as (_ & Hs & _).
  pose proof (inv_fifo _ _ _ Hinv) as Hf. rewrite Hs in Hf.
  symmetry in Hf. by apply app_eq_nil in Hf.
Qed.

Lemma step_map a s s' :
  invariant s → step a s s' →
  ∀ m, held_map (consumer s') = Some m → m = consumed (dupesChan cl) (received s').
Proof.
  intros Hinv Hstep. pose proof (inv_map _ _ _ Hinv) as Hm.
  pose proof (early_received _ Hinv) as He. clear Hinv.
  destruct Hstep; simpl in *; try assumption; rw;
    rewrite ?held_map_after_send; intros; simplify_eq/=; try done;
    try (by apply Hm).
  - destruct He as [-> _]; [lia|done].
  - by rewrite consumed_snoc, <-(Hm m eq_refl).
  - destruct (dupesChan cl); simplify_eq/=. by apply Hm.
Qed.

Lemma step_send a s s' :
  invariant s → step a s s' → ∀ m, consumer s' ≠ C_send [] m.
Proof.
  intros Hinv Hstep. pose proof (inv_send _ _ _ Hinv) as Hm. clear Hinv.
  destruct Hstep; simpl in *; try assumption; rw; split_send; try done.
  by destruct (dupesChan cl).
Qed.

Lemma step_past a s s' :
  invariant s → step a s s' →
  past_loop (consumer s') → pairs s' = [] ∧ pairs_closed s' = true.
Proof.
  intros Hinv Hstep. pose proof (inv_past _ _ _ Hinv) as Hm.
  pose proof (inv_off _ _ _ Hinv) as Ho.
  pose proof (inv_late _ _ _ Hinv) as Hl.
  pose proof (inv_early _ _ _ Hinv) as He. clear Hinv.
  destruct Hstep; simpl in *; try assumption; rw; split_send; crush.
Qed.

Lemma step_mode a s s' :
  invariant s → step a s s' →
  (consumer s' = C_close → dupesChan cl = true) ∧
  (∀ m, consumer s' = C_results m → dupesChan cl = false).
Proof.
  intros Hinv Hstep. pose proof (inv_mode _ _ _ Hinv) as Hm. clear Hinv.
  destruct Hstep; simpl in *; try assumption; rw; split_send;
    try (split; intros; by simplify_eq/=).
  by destruct (dupesChan cl).
Qed.

Lemma step_dupes_closed a s s' :
  invariant s → step a s s' →
  dupes_closed s' = true ↔ consumer s' = C_done ∧ dupesChan cl = true.
Proof.
  intros Hinv Hstep. pose proof (inv_dupes_closed _ _ _ Hinv) as Hm.
  pose proof (inv_mode _ _ _ Hinv) as Hmode.
  pose proof (inv_off _ _ _ Hinv) as Ho. clear Hinv.
  destruct (dupesChan cl) eqn:Hd;
    destruct Hstep; simpl in *; try assumption; rw; rewrite ?Hd in *;
    split_send; know_off Ho s; know_mode Hmode; crush.
Qed.

Lemma step_results a s s' :
  invariant s → step a s s' →
  ∀ res, results s' = Some res →
         consumer s' = C_done ∧ dupesChan cl = false ∧ phase (main s') < 6 ∧
         processResults (consumed false (received s')) res.
Proof.
  intros Hinv Hstep. pose proof (inv_results _ _ _ Hinv) as Hm.
  pose proof (inv_mode _ _ _ Hinv) as Hmode.
  pose proof (inv_map _ _ _ Hinv) as Hmap.
  pose proof (inv_got _ _ _ Hinv) as Hgot.
  pose proof (inv_off _ _ _ Hinv) as Ho. clear Hinv.
  destruct (dupesChan cl) eqn:Hd;
    destruct Hstep; simpl in *; try assumption; rw; rewrite ?Hd in *;
    split_send; know_off Ho s; know_mode Hmode; intros res0 Hres; simplify_eq/=;
    try (destruct (Hm _ Hres) as (? & ? & ? & ?); simplify_eq/=;
         split_and!; try done; try lia).
  split_and!; [done|done| |].
  - destruct (main s) eqn:Hmain; simpl; try lia.
    by destruct (Hgot _ _ eq_refl) as (_ & ? & _).
  - by rewrite <-(Hmap m eq_refl).
Qed.

Lemma step_done a s s' :
  invariant s → step a s s' →
  consumer s' = C_done → dupesChan cl = false →
  is_Some (results s') ∨ phase (main s') = 6.
Proof.
  intros Hinv Hstep. pose proof (inv_done _ _ _ Hinv) as Hm.
  pose proof (inv_mode _ _ _ Hinv) as Hmode.
  pose proof (inv_results _ _ _ Hinv) as Hres.
  pose proof (inv_got _ _ _ Hinv) as Hgot.
  pose proof (inv_off _ _ _ Hinv) as Ho. clear Hinv.
  destruct (dupesChan cl) eqn:Hd;
    destruct Hstep; simpl in *; try assumption; rw; rewrite ?Hd in *;
    split_send; know_off Ho s; know_mode Hmode; intros; simplify_eq/=;
    try (by left); try (by right); try (by apply Hm).
  all: destruct Hm as [?|?]; [done|done|by left|done].
Qed.

Lemma step_got a s s' :
  invariant s → step a s s' →
  ∀ res e, main s' = M_got res e →
           cl = GetResults ∧ consumer s' = C_done ∧ results s' = None ∧
           processResults (consumed false (received s')) res.
Proof.
  intros Hinv Hstep. pose proof (inv_got _ _ _ Hinv) as Hgot.
  pose proof (inv_results _ _ _ Hinv) as Hres.
  pose proof (inv_past _ _ _ Hinv) as Hpast. clear Hinv.
  destruct Hstep; simpl in *; try assumption; rw; intros; simplify_eq/=;
    try (match goal with
         | Hm : main _ = M_got _ _ |- _ =>
             destruct (Hgot _ _ Hm) as (? & ? & ? & ?); by simplify_eq/=
         end).
  by destruct (Hres _ eq_refl) as (? & ? & ? & ?).
Qed.

Lemma invariant_step a s s' : invariant s → step a s s' → invariant s'.
Proof.
  intros Hinv Hstep. constructor.
  - eapply step_early; eauto.
  - eapply step_nosink; eauto.
  - eapply step_late; eauto.
  - eapply step_closed; eauto.
  - eapply step_fifo; eauto.
  - eapply step_cap; eauto.
  - eapply step_roots; eauto.
  - eapply step_err; eauto.
  - eapply step_run_err; eauto.
  - eapply step_off; eauto.
  - eapply step_stream; eauto.
  - eapply step_map; eauto.
  - eapply step_send; eauto.
  - eapply step_past; eauto.
  - eapply step_mode; eauto.
  - eapply step_dupes_closed; eauto.
  - eapply step_results; eauto.
  - eapply step_done; eauto.
  - eapply step_got; eauto.
Qed.

Lemma reachable_invariant s : reachable s → invariant s.
Proof.
  revert s. apply rtc_ind_r.
  - apply invariant_init.
  - intros s s' _ [a Hstep] IH. by eapply invariant_step.
Qed.

End invariant.

(** ** Every run is finite *)

Section fuel.

Variable defaults : Cfg → Cfg.
Variable lstat : string → PathError + DirEntry.
Variable c0 : Cfg.
Variable caller : list string → bool.
Variable cl : call.

#[local] Abbreviation step := (step defaults lstat c0 caller cl).
#[local] Abbreviation step_any := (step_any defaults lstat c0 caller cl).
#[local] Abbreviation cfg := (cfg defaults c0).
#[local] Abbreviation walk := (psize (search lstat (Path cfg) cfg)).

Lemma consumePair_emits_le streaming m p : length (consumePair streaming m p).2 ≤ 2.
Proof.
  unfold consumePair. destruct (MapOf.Load m (key p)) as [[|? [|? ?]]|], streaming;
    simpl; lia.
Qed.

Lemma consumer_fuel_after_send out m :
  consumer_fuel (after_send out m) = length out + 2.
Proof. by destruct out. Qed.

Lemma psize_tasks l1 t l2 :
  sum_list_with psize (l1 ++ t :: l2) =
  sum_list_with psize l1 + psize t + sum_list_with psize l2.
Proof. rewrite sum_list_with_app. simpl. lia. Qed.

Lemma step_fuel a s s' : step a s s' → fuel walk s' < fuel walk s.
Proof.
  intros Hstep. unfold fuel.
  destruct Hstep; simpl;
    repeat match goal with
    | H : main _ = _ |- _ => rewrite H
    | H : consumer _ = _ |- _ => rewrite H
    | H : listener _ = _ |- _ => rewrite H
    | H : tasks _ = _ |- _ => rewrite H
    | H : pairs _ = _ |- _ => rewrite H
    | H : shutdown _ = _ |- _ => rewrite H
    end; simpl;
    rewrite ?psize_tasks, ?sum_list_with_app, ?consumer_fuel_after_send, ?length_app;
    simpl; try lia.
  - destruct (shutdown s); simpl; lia.
  - pose proof (consumePair_emits_le (dupesChan cl) m p). lia.
  - destruct (dupesChan cl); simpl; lia.
Qed.

(** A run of [n] steps uses up [n] units of fuel. *)
Lemma nsteps_fuel n s s' : nsteps step_any n s s' → n + fuel walk s' ≤ fuel walk s.
Proof.
  induction 1 as [|n s s1 s' [a Hstep] _ IH]; [lia|].
  apply step_fuel in Hstep. lia.
Qed.

End fuel.

(** ** After the pool has drained *)

Section drained.

Variable defaults : Cfg → Cfg.
Variable lstat : string → PathError + DirEntry.
Variable c0 : Cfg.
Variable caller : list string → bool.
Variable cl : call.

#[local] Abbreviation step := (step defaults lstat c0 caller cl).
#[local] Abbreviation step_any := (step_any defaults lstat c0 caller cl).
#[local] Abbreviation reachable := (reachable defaults lstat c0 caller cl).
#[local] Abbreviation cfg := (cfg defaults c0).
#[local] Abbreviation invariant := (invariant cl cfg).

Lemma drained_step a s s' : step a s s' → drained s → drained s'.
Proof.
  intros Hstep [Hp Ht]. unfold drained.
  destruct Hstep; simpl in *; rw; try nonnil; try (split; [lia|done]); try done.
  all: split; simpl; try lia; try done.
Qed.

Lemma reachable_step s s' : reachable s → rtc step_any s s' → reachable s'.
Proof. unfold reachable. intros. by etrans. Qed.

Lemma drained_rtc s s' : rtc step_any s s' → drained s → drained s'.
Proof.
  induction 1 as [|s s1 s' [a Hstep] _ IH]; [done|].
  intros Hd. eapply IH, drained_step; eauto.
Qed.

(** In batch mode the aggregator never sends on [dupesChan]. *)
Lemma send_is_streaming s out m :
  invariant s → consumer s = C_send out m → dupesChan cl = true.
Proof.
  intros Hinv Hc. destruct (dupesChan cl) eqn:Hd; [done|].
  pose proof (inv_stream _ _ _ Hinv) as Hst. rewrite Hd, Hc in Hst. simpl in Hst.
  apply app_eq_nil in Hst as [_ ->]. by destruct (inv_send _ _ _ Hinv m).
Qed.

(** With the pool drained and a caller that keeps receiving, the aggregator
    is never stuck inside its loop: it can receive, send or leave the loop,
    or [run] is about to close the pair channel. *)
Lemma drained_loop_progress s :
  invariant s → keeps_receiving cl caller → drained s → in_loop (consumer s) →
  ∃ a s', (a = Main ∨ a = Aggregator) ∧ step a s s'.
Proof.
  intros Hinv Hrecv [Hp Ht] Hloop.
  destruct (consumer s) as [|m|out m| | |] eqn:Hc; try done.
  - destruct (pairs s) as [|p rest] eqn:Hpairs.
    + destruct (pairs_closed s) eqn:Hcl.
      * eexists Aggregator, _. split; [by right|]. by eapply consume_end.
      * destruct (main s) eqn:Hm; simpl in Hp; try lia.
        -- eexists Main, _. split; [by left|]. by eapply run_wait.
        -- eexists Main, _. split; [by left|]. by eapply run_close.
        -- exfalso. destruct (has_sink cl) eqn:Hs.
           ++ assert (pairs_closed s = true); [|congruence].
              apply (inv_closed _ _ _ Hinv). rewrite Hm. simpl. split; [lia|done].
           ++ assert (consumer s = C_off); [|congruence].
              apply (inv_off _ _ _ Hinv). by right.
        -- exfalso. destruct (inv_got _ _ _ Hinv _ _ Hm) as (_ & ? & _). congruence.
    + eexists Aggregator, _. split; [by right|]. by eapply consume_recv.
  - destruct out as [|x out]; [by destruct (inv_send _ _ _ Hinv m)|].
    eexists Aggregator, _. split; [by right|]. eapply consume_send; [done|].
    apply Hrecv. by eapply send_is_streaming.
Qed.

End drained.

(** ** Properties of every run *)

Section run.

Variable defaults : Cfg → Cfg.
Variable lstat : string → PathError + DirEntry.
Variable c0 : Cfg.
Variable caller : list string → bool.

#[local] Abbreviation cfg := (cfg defaults c0).
#[local] Abbreviation walk := (psize (search lstat (Path cfg) cfg)).

Section any_call.

Variable cl : call.

#[local] Abbreviation step := (step defaults lstat c0 caller cl).
#[local] Abbreviation step_any := (step_any defaults lstat c0 caller cl).
#[local] Abbreviation reachable := (reachable defaults lstat c0 caller cl).
#[local] Abbreviation invariant := (invariant cl cfg).

Lemma past_loop_received s : invariant s → past_loop (consumer s) → received s = sent s.
Proof.
  intros Hinv Hp. destruct (inv_past _ _ _ Hinv Hp) as [Hpairs _].
  by rewrite (inv_fifo _ _ _ Hinv), Hpairs, app_nil_r.
Qed.

Lemma not_past_after_send out m : ¬ past_loop (after_send out m).
Proof. destruct out; simpl; tauto. Qed.

Lemma loop_exit a s s' :
  step a s s' → in_loop (consumer s) → past_loop (consumer s') →
  a = Aggregator ∧ pairs_closed s = true ∧ pairs s = [].
Proof.
  intros Hstep Hin Hpast.
  destruct Hstep; simpl in *; rw; try done;
    try (by destruct (consumer s)).
  all: try (exfalso; revert Hpast; by apply not_past_after_send).
Qed.

(** With the pool drained, [run] and the aggregator finish: as long as the
    aggregator has not finished, one of the two can move. *)
Lemma drained_progress s :
  invariant s → keeps_receiving cl caller → drained s → has_sink cl = true →
  consumer s ≠ C_done →
  ∃ a s', (a = Main ∨ a = Aggregator) ∧ step a s s'.
Proof.
  intros Hinv Hrecv Hd Hsink Hc.
  destruct (consumer s) as [|m|out m| |m|] eqn:Hcons; try done.
  - destruct Hd as [Hp _].
    destruct (proj1 (inv_off _ _ _ Hinv) Hcons) as [Hz|Hz]; [lia|congruence].
  - apply drained_loop_progress; [done..|by rewrite Hcons].
  - apply drained_loop_progress; [done..|by rewrite Hcons].
  - eexists Aggregator, _. split; [by right|]. by eapply consume_close.
  - destruct (processResults_total m) as [res Hres].
    destruct (results s) as [r|] eqn:Hr.
    + destruct (inv_results _ _ _ Hinv _ Hr) as (? & _). congruence.
    + eexists Aggregator, _. split; [by right|]. by eapply consume_results.
Qed.

(** A path reaches [dupesChan] only by a send of the aggregator, taken when
    the caller receives. *)
Lemma send_needs_receiver a s s' :
  step a s s' → dupes s' ≠ dupes s → a = Aggregator ∧ caller (dupes s) = true.
Proof. intros Hstep Hd. by destruct Hstep. Qed.

(** While the caller does not receive, an aggregator that has a path to
    send stays at its send, and [dupesChan] stays open. *)
Lemma blocked_send_forever s s' x out m :
  (∀ got, caller got = false) → consumer s = C_send (x :: out) m → main s ≠ M_run →
  rtc step_any s s' → consumer s' = C_send (x :: out) m ∧ dupes_closed s' = dupes_closed s.
Proof.
  intros Hdeaf Hc Hm Hrtc.
  induction Hrtc as [s|s s1 s' [a Hstep] _ IH]; [done|].
  assert (consumer s1 = C_send (x :: out) m ∧ main s1 ≠ M_run ∧
          dupes_closed s1 = dupes_closed s) as (Hc1 & Hm1 & Hd1).
  { destruct Hstep; simpl in *; split_and!; try done; try congruence.
    all: specialize (Hdeaf (dupes s)); congruence. }
  destruct (IH Hc1 Hm1) as [? ?]. split; congruence.
Qed.

(** With a worker limit of one, a walk that is alone in the pool and at a
    [g.Go] stays there: [run] stays in [g.Wait()] and no pair is sent. *)
Lemma single_worker_blocked s s' t k :
  Workers cfg = 1%Z → main s = M_wait → tasks s = [Go t k] →
  rtc step_any s s' → main s' = M_wait ∧ tasks s' = [Go t k] ∧ sent s' = sent s.
Proof.
  intros Hw Hm Ht Hrtc.
  induction Hrtc as [s|s s1 s' [a Hstep] _ IH]; [done|].
  assert (main s1 = M_wait ∧ tasks s1 = [Go t k] ∧ sent s1 = sent s)
    as (Hm1 & Ht1 & Hs1).
  { destruct Hstep; simpl in *; split_and!; try done; try congruence;
      try (destruct l1 as [|? [|? ?]]; simplify_eq/=; congruence).
    all: exfalso; unfold has_room in *; rewrite Ht, Hw in *; simpl in *; lia. }
  destruct (IH Hm1 Ht1) as (? & ? & ?). split_and!; congruence.
Qed.

(** A run from [s] of any length stays within the fuel of [s]. *)
Lemma bounded_runs s n s' : nsteps step_any n s s' → n ≤ fuel walk s.
Proof. intros Hn%nsteps_fuel. lia. Qed.

(** C2, as the code has it: the pair channel is closed only after
    [g.Wait()] has returned, when no task of the pool is left; the
    aggregator leaves its loop only by the step that finds the channel
    closed and empty; every pair sent is in the channel or was received, and
    all were received once the loop is left; a path reaches [dupesChan] only
    by a send of the aggregator that the caller receives; and from a state
    in which the pool has drained every run is finite and, provided that in
    streaming mode the caller keeps receiving, the aggregator, while still
    in its loop, is never blocked for good: [run] or the aggregator itself
    can take a step. *)
Theorem C2_close_after_drain s :
  reachable s →
  (pairs_closed s = true → 5 ≤ phase (main s) ∧ tasks s = []) ∧
  (∀ a s', step a s s' → in_loop (consumer s) → past_loop (consumer s') →
           a = Aggregator ∧ pairs_closed s = true ∧ pairs s = []) ∧
  sent s = received s ++ pairs s ∧
  (past_loop (consumer s) → received s = sent s) ∧
  (∀ a s', step a s s' → dupes s' ≠ dupes s →
           a = Aggregator ∧ caller (dupes s) = true) ∧
  (drained s → ∀ s', rtc step_any s s' →
     (∀ n s'', nsteps step_any n s' s'' → n ≤ fuel walk s') ∧
     (keeps_receiving cl caller → in_loop (consumer s') →
      ∃ a s'', (a = Main ∨ a = Aggregator) ∧ step a s' s'')).
Proof.
  intros Hr. pose proof (reachable_invariant _ _ _ _ _ _ Hr) as Hinv.
  split_and!.
  - intros Hc. apply (inv_closed _ _ _ Hinv) in Hc as [Hp _].
    split; [done|]. apply (inv_late _ _ _ Hinv). lia.
  - intros a s' Hstep. by apply loop_exit.
  - apply (inv_fifo _ _ _ Hinv).
  - by apply past_loop_received.
  - intros a s'. apply send_needs_receiver.
  - intros Hd s' Hs'. split.
    + intros n s''. apply bounded_runs.
    + intros Hrecv. apply drained_loop_progress; [|done|].
      * eapply reachable_invariant, reachable_step; eauto.
      * eapply drained_rtc; eauto.
Qed.

Lemma roots_single s : reachable s → roots s = [] ∨ roots s = [Path cfg].
Proof.
  intros Hr. pose proof (reachable_invariant _ _ _ _ _ _ Hr) as Hinv.
  destruct (has_sink cl) eqn:Hs.
  - destruct (decide (phase (main s) < 3)) as [Hp|Hp].
    + left. by destruct (inv_early _ _ _ Hinv Hp) as (_ & _ & _ & ? & _).
    + right. apply (inv_roots _ _ _ Hinv); [lia|done].
  - left. by destruct (inv_nosink _ _ _ Hinv Hs) as (_ & _ & _ & _ & ? & _).
Qed.

(** C5, as the code has it: every search walks exactly one root, the
    configured [c.Path].  No walk of another directory is ever submitted;
    once [run], called with a channel, is past its [g.Go] (and so whenever
    it has returned) exactly one walk has been submitted, that of [c.Path];
    [run] at its [g.Go] submits it, as the only task of the pool, whenever
    the worker limit is not zero; a walk is submitted by no other step; the
    program submitted is [search] on that directory; and the error [run]
    returns is the first error returned by a task of the pool, in the order
    the tasks finished. *)
Theorem C5_one_root s :
  reachable s →
  (roots s = [] ∨ roots s = [Path cfg]) ∧
  (3 ≤ phase (main s) → has_sink cl = true → roots s = [Path cfg]) ∧
  (main s = M_search → (Workers cfg ≠ 0)%Z →
     ∃ s', step Main s s' ∧ main s' = M_wait ∧ roots s' = [Path cfg] ∧
           tasks s' = [search lstat (Path cfg) cfg]) ∧
  (∀ a s', step a s s' → roots s' ≠ roots s →
     a = Main ∧ main s = M_search ∧ roots s' = roots s ++ [Path cfg] ∧
     tasks s' = tasks s ++ [search lstat (Path cfg) cfg]) ∧
  (∀ s', step Main s s' →
         tasks s' = tasks s ∨ tasks s' = tasks s ++ [search lstat (Path cfg) cfg]) ∧
  (∀ err, run_err (main s) = Some err → has_sink cl = true →
          err = first_error (finished s)).
Proof.
  intros Hr. pose proof (reachable_invariant _ _ _ _ _ _ Hr) as Hinv.
  split_and!.
  - by apply roots_single.
  - apply (inv_roots _ _ _ Hinv).
  - intros Hm Hw.
    destruct (inv_early _ _ _ Hinv) as (Ht & _ & _ & Hroots & _);
      [rewrite Hm; simpl; lia|].
    eexists. split.
    + apply run_search; [done|]. rewrite Ht. unfold has_room. simpl. lia.
    + simpl. rewrite Ht, Hroots. by split_and!.
  - intros a s' Hstep Hroots. by destruct Hstep.
  - intros s' Hstep. inversion Hstep; subst; simpl; auto.
  - apply (inv_run_err _ _ _ Hinv).
Qed.

End any_call.

Section streaming.

#[local] Abbreviation cl := (StreamResults true).
#[local] Abbreviation step := (step defaults lstat c0 caller cl).
#[local] Abbreviation step_any := (step_any defaults lstat c0 caller cl).
#[local] Abbreviation reachable := (reachable defaults lstat c0 caller cl).
#[local] Abbreviation invariant := (invariant cl cfg).

(** C4, as the code has it: [StreamResults] returns only after [g.Wait()]
    has returned and the pair channel was closed, with no task left and with
    the first error of the tasks; meanwhile the paths the aggregator emits
    for the pairs it consumes are delivered to the output channel, each by a
    send that the caller receives; the output channel is closed by the
    aggregator after it has consumed every pair and sent every path; and
    once the pool has drained every run is finite and, provided the caller
    keeps receiving, until the output channel is closed [run] or the
    aggregator can take a step. *)
Theorem C4_returns_after_wait s :
  reachable s →
  (returned cl (main s) →
     tasks s = [] ∧ pairs_closed s = true ∧
     run_err (main s) = Some (first_error (finished s))) ∧
  dupes s ++ pending (consumer s) = streamed (received s) ∧
  (∀ a s', step a s s' → dupes s' ≠ dupes s →
           a = Aggregator ∧ caller (dupes s) = true) ∧
  (dupes_closed s = true →
     pairs_closed s = true ∧ received s = sent s ∧ dupes s = streamed (sent s)) ∧
  (drained s → ∀ s', rtc step_any s s' →
     (∀ n s'', nsteps step_any n s' s'' → n ≤ fuel walk s') ∧
     ((∀ got, caller got = true) → dupes_closed s' = false →
      ∃ a s'', (a = Main ∨ a = Aggregator) ∧ step a s' s'')).
Proof.
  intros Hr. pose proof (reachable_invariant _ _ _ _ _ _ Hr) as Hinv.
  split_and!.
  - intros Hret. destruct (main s) eqn:Hm; try done.
    split_and!.
    + apply (inv_late _ _ _ Hinv). rewrite Hm. simpl. lia.
    + apply (inv_closed _ _ _ Hinv). rewrite Hm. simpl. split; [lia|done].
    + simpl. f_equal. apply (inv_run_err _ _ _ Hinv); [by rewrite Hm|done].
  - apply (inv_stream _ _ _ Hinv).
  - intros a s'. apply send_needs_receiver.
  - intros Hc. apply (inv_dupes_closed _ _ _ Hinv) in Hc as [Hc _].
    assert (past_loop (consumer s)) as Hp by (by rewrite Hc).
    pose proof (past_loop_received _ _ Hinv Hp) as Hrs.
    split_and!; [by apply (inv_past _ _ _ Hinv)|done|].
    pose proof (inv_stream _ _ _ Hinv) as Hst. rewrite Hc in Hst. simpl in Hst.
    by rewrite app_nil_r, Hrs in Hst.
  - intros Hd s' Hs'. split.
    + intros n s''. apply bounded_runs.
    + intros Hrecv Hopen.
      assert (invariant s') as Hinv'
        by (eapply reachable_invariant, reachable_step; eauto).
      apply drained_progress; [done|by intros _| |done|].
      * eapply drained_rtc; eauto.
      * intros Hdone.
        assert (dupes_closed s' = true); [|congruence].
        by apply (inv_dupes_closed _ _ _ Hinv').
Qed.

(** C9: in streaming mode, when the pairs sent carry pairwise distinct paths
    (one pair per file), no path is sent to the output channel twice: the
    pairs leave the pair channel in the order they entered it, each once,
    the paths sent or about to be sent are what the loop emits for the pairs
    received, and one iteration emits the first member of the pair's group
    followed by the pair's path when the group had one member, the pair's
    path alone when it had more, and nothing for a new key. *)
Theorem C9_at_most_once s :
  reachable s →
  NoDup (path <$> sent s) →
  NoDup (dupes s ++ pending (consumer s)) ∧
  sent s = received s ++ pairs s ∧
  dupes s ++ pending (consumer s) = streamed (received s) ∧
  (∀ hs p, streamed (hs ++ [p]) =
           streamed hs ++ match group (key p) hs with
                          | [] => []
                          | [first] => [first; path p]
                          | _ => [path p]
                          end).
Proof.
  intros Hr Hnd. pose proof (reachable_invariant _ _ _ _ _ _ Hr) as Hinv.
  pose proof (inv_stream _ _ _ Hinv) as Hst. simpl in Hst.
  pose proof (inv_fifo _ _ _ Hinv) as Hf.
  split_and!; [|done|done|apply streamed_snoc].
  rewrite Hst. apply streamed_NoDup.
  rewrite Hf, fmap_app in Hnd. by apply NoDup_app in Hnd as [? _].
Qed.

End streaming.

Section batch.

#[local] Abbreviation cl := GetResults.
#[local] Abbreviation step := (step defaults lstat c0 caller cl).
#[local] Abbreviation step_any := (step_any defaults lstat c0 caller cl).
#[local] Abbreviation reachable := (reachable defaults lstat c0 caller cl).
#[local] Abbreviation invariant := (invariant cl cfg).

Lemma batch_progress s :
  invariant s → drained s → ¬ returned cl (main s) →
  ∃ a s', (a = Main ∨ a = Aggregator) ∧ step a s s'.
Proof.
  intros Hinv Hd Hret.
  assert (consumer s = C_done ∨ consumer s ≠ C_done) as [Hc|Hc]
    by (destruct (consumer s); auto);
    [|by apply drained_progress].
  destruct Hd as [Hp Ht].
  destruct (main s) eqn:Hm; simpl in *; try lia; try done.
  - eexists Main, _. split; [by left|]. by eapply run_wait.
  - eexists Main, _. split; [by left|]. by eapply run_close.
  - destruct (inv_done _ _ _ Hinv Hc eq_refl) as [[res Hres]|Hp'].
    + eexists Main, _. split; [by left|]. by eapply get_results.
    + rewrite Hm in Hp'. done.
Qed.

(** X11: what [GetResults] returns is never the nil slice, and it is the
    empty slice when no key was sent with two paths; and once the pool has
    drained, whether or not a task returned an error, every run is finite
    and, until [GetResults] has returned, [run] or the aggregator can take a
    step. *)
Theorem X11_empty_not_nil s :
  reachable s →
  (∀ res err, main s = M_got res err →
     res ≠ nil_slice ∧
     ((∀ k, length (group k (sent s)) ≤ 1) → res = mk_slice [])) ∧
  (drained s → ∀ s', rtc step_any s s' →
     (∀ n s'', nsteps step_any n s' s'' → n ≤ fuel walk s') ∧
     (¬ returned cl (main s') →
      ∃ a s'', (a = Main ∨ a = Aggregator) ∧ step a s' s'')).
Proof.
  intros Hr. pose proof (reachable_invariant _ _ _ _ _ _ Hr) as Hinv.
  split.
  - intros res err Hm.
    destruct (inv_got _ _ _ Hinv _ _ Hm) as (_ & Hc & _ & Hres).
    assert (past_loop (consumer s)) as Hp by (by rewrite Hc).
    rewrite (past_loop_received _ _ Hinv Hp) in Hres.
    split; [by eapply processResults_non_nil|].
    intros Hk. eapply processResults_no_dupes; [|done].
    intros k v. rewrite consumed_lookup. case_decide; [done|].
    intros [= <-]. apply Hk.
  - intros Hd s' Hs'. split.
    + intros n s''. apply bounded_runs.
    + apply batch_progress.
      * eapply reachable_invariant, reachable_step; eauto.
      * eapply drained_rtc; eauto.
Qed.

End batch.

End run.

(** ** Tasks run on their own *)

Section exec.

Implicit Types (p : prog) (o : outcome) (c : Cfg) (d : DirEntry).

(** Induction on a file tree. *)
Lemma DirEntry_tree_ind (P : DirEntry → Prop) :
  (∀ name mode info dirs rerr, Forall P dirs → P (Entry name mode info dirs rerr)) →
  ∀ d, P d.
Proof.
  intros IH. fix rec 1. intros [name mode info dirs rerr]. apply IH.
  induction dirs as [|d1 dirs IHdirs]; constructor; [apply rec|apply IHdirs].
Qed.

Lemma exec_bind down p f :
  exec down (bind p f) =
  then_outcome (exec down p) (exec down (f (result (exec down p)))).
Proof.
  induction p as [r|k IH|g file k IH|q k IH|t _ k IH]; simpl.
  - by destruct (exec down (f r)).
  - apply IH.
  - rewrite IH. by destruct (exec down (k (g file))).
  - rewrite IH. by destruct (exec down k).
  - rewrite IH. by destruct (exec down k).
Qed.

Lemma result_bind down p f :
  result (exec down (bind p f)) = result (exec down (f (result (exec down p)))).
Proof. by rewrite exec_bind. Qed.

Lemma then_idle o : then_outcome idle o = o.
Proof. by destruct o. Qed.

(** *** Shutting down: every check answers true *)

Lemma exec_true_producePair file keyGen : exec true (producePair file keyGen) = idle.
Proof. reflexivity. Qed.

Lemma exec_true_walkFn c file de err : exec true (walkFn c file de err) = idle.
Proof. reflexivity. Qed.

Lemma exec_true_walkEntries (walk : DirEntry → prog) dirs :
  Forall (λ d1, exec true (walk d1) = idle) dirs →
  exec true (walkEntries walk dirs) = idle.
Proof.
  induction 1 as [|d1 dirs H1 _ IH]; [done|].
  simpl. by rewrite exec_bind, H1, then_idle.
Qed.

Lemma exec_true_walkDir c d : ∀ file, exec true (walkDir file d (walkFn c)) = idle.
Proof.
  induction d as [name mode info dirs rerr IH] using DirEntry_tree_ind.
  intros file. simpl. destruct (IsDir _); simpl; [|done].
  destruct rerr; simpl; apply exec_true_walkEntries;
    (eapply Forall_impl; [exact IH|]); simpl; auto.
Qed.

Lemma exec_true_search lstat dir c : exec true (search lstat dir c) = idle.
Proof.
  unfold search, WalkDir. rewrite exec_bind.
  destruct (lstat dir) as [e|info].
  - by rewrite exec_true_walkFn.
  - by rewrite exec_true_walkDir.
Qed.

(** *** Not shutting down: every check answers false *)

Lemma result_walkFn c file d :
  result (exec false (walkFn c file (Some d) None)) =
  if IsDir d && skipDir c file then Some SkipDir else None.
Proof.
  simpl. destruct (IsDir d && skipDir c file); [done|].
  destruct (IsRegular d && negb (skipFile c file)); [|done].
  destruct (Info d) as [|size]; [done|]. by case_decide.
Qed.

Lemma result_walkEntries c file dirs :
  Forall (λ d1, ∀ f, result (exec false (walkDir f d1 (walkFn c))) =
                     ofPathError <$> head (walk_errors c f d1)) dirs →
  result (exec false
    (walkEntries (λ d1, walkDir (Join file (Name d1)) d1 (walkFn c)) dirs)) =
  ofPathError <$> head (omap (λ d', (ReadDir d').2)
    (flat_map (λ d1, walked_dirs c (Join file (Name d1)) d1) dirs)).
Proof.
  induction 1 as [|d1 dirs H1 _ IH]; [done|].
  simpl. rewrite result_bind, H1, omap_app. unfold walk_errors.
  destruct (omap _ (walked_dirs c (Join file (Name d1)) d1)) as [|e errs]; simpl.
  - apply IH.
  - done.
Qed.

Lemma result_walkDir c d :
  ∀ file, result (exec false (walkDir file d (walkFn c))) =
          ofPathError <$> head (walk_errors c file d).
Proof.
  induction d as [name mode info dirs rerr IH] using DirEntry_tree_ind.
  intros file. unfold walk_errors.
  set (d := Entry name mode info dirs rerr).
  change (walkDir file d (walkFn c)) with
    (bind (walkFn c file (Some d) None) (λ err,
       if bool_decide (err ≠ None) || negb (IsDir d) then skipped err d
       else
         bind (match rerr with
               | Some e => walkFn c file (Some d) (Some (ofPathError e))
               | None => Ret None
               end) (λ err,
           if bool_decide (err ≠ None) then skipped err d
           else walkEntries (λ d1, walkDir (Join file (Name d1)) d1 (walkFn c)) dirs))).
  rewrite result_bind, result_walkFn.
  change (walked_dirs c file d) with
    (if IsDir d && negb (skipDir c file)
     then d :: flat_map (λ d1, walked_dirs c (Join file (Name d1)) d1) dirs
     else []).
  destruct (IsDir d) eqn:Hdir; simpl; [|done].
  destruct (skipDir c file) eqn:Hskip; simpl.
  { unfold skipped. by rewrite Hdir. }
  rewrite result_bind. destruct rerr as [e|]; simpl.
  - done.
  - by apply result_walkEntries.
Qed.

Lemma result_search lstat dir c :
  result (exec false (search lstat dir c)) =
  match lstat dir with
  | inl e => Some (ofPathError e)
  | inr d => ofPathError <$> head (walk_errors c dir d)
  end.
Proof.
  unfold search, WalkDir. rewrite result_bind.
  destruct (lstat dir) as [e|d].
  - done.
  - rewrite result_walkDir. by destruct (head _).
Qed.

End exec.

(** ** Concrete runs *)

Ltac premise :=
  simpl; first [reflexivity | done | (left; reflexivity) | (right; vm_compute; done) | lia].

Ltac run_step lem := eapply rtc_l; [eexists; eapply lem; premise | simpl].

Ltac task_step lem pre :=
  eapply rtc_l; [eexists; eapply (lem _ _ _ _ _) with (l1 := pre); premise | simpl].

Lemma ex_stream_end_reachable :
  reachable (Cfg_defaults 8) ex_lstat (ex_cfg 4) receiving (StreamResults true) ex_stream_end.
Proof.
  unfold reachable.
  run_step run_consumer. run_step run_shutdown. run_step run_search.
  (* the walk *)
  task_step task_shuttingDown (@nil prog).
  task_step task_shuttingDown (@nil prog).
  task_step task_go (@nil prog).
  task_step task_shuttingDown (@nil prog).
  task_step task_go (@nil prog).
  task_step task_done (@nil prog).
  (* the two producers *)
  task_step task_shuttingDown (@nil prog).
  task_step task_keyGen (@nil prog).
  task_step task_send (@nil prog).
  task_step task_done (@nil prog).
  task_step task_shuttingDown (@nil prog).
  task_step task_keyGen (@nil prog).
  task_step task_send (@nil prog).
  task_step task_done (@nil prog).
  (* the aggregator and the end of run *)
  run_step consume_recv. run_step consume_recv.
  run_step consume_send. run_step consume_send.
  run_step run_wait. run_step run_close.
  run_step consume_end. run_step consume_close.
  apply rtc_refl.
Qed.

Lemma ex_batch_end_reachable :
  reachable (Cfg_defaults 8) ex_lstat (ex_cfg 4) receiving GetResults ex_batch_end.
Proof.
  unfold reachable.
  run_step run_consumer. run_step run_shutdown. run_step run_search.
  task_step task_shuttingDown (@nil prog).
  task_step task_shuttingDown (@nil prog).
  task_step task_go (@nil prog).
  task_step task_shuttingDown (@nil prog).
  task_step task_go (@nil prog).
  task_step task_done (@nil prog).
  task_step task_shuttingDown (@nil prog).
  task_step task_keyGen (@nil prog).
  task_step task_send (@nil prog).
  task_step task_done (@nil prog).
  task_step task_shuttingDown (@nil prog).
  task_step task_keyGen (@nil prog).
  task_step task_send (@nil prog).
  task_step task_done (@nil prog).
  run_step consume_recv. run_step consume_recv.
  run_step run_wait. run_step run_close.
  run_step consume_end.
  eapply rtc_l.
  { eexists. eapply consume_results with (res := mk_slice ["root/a"; "root/b"]).
    - reflexivity.
    - reflexivity.
    - exists [("k", ["root/a"; "root/b"])]. split; [|reflexivity].
      unfold MapOf.Range. vm_compute. reflexivity. }
  simpl. run_step get_results.
  apply rtc_refl.
Qed.

Lemma ex_launched_reachable :
  reachable (Cfg_defaults 8) ex_lstat (ex_cfg 4) receiving (StreamResults true) ex_launched.
Proof.
  unfold reachable.
  run_step run_consumer. run_step run_shutdown. run_step run_search.
  apply rtc_refl.
Qed.

Lemma ex_unreceived_reachable :
  reachable (Cfg_defaults 8) ex_lstat (ex_cfg 4) deaf (StreamResults true) ex_unreceived.
Proof.
  unfold reachable.
  run_step run_consumer. run_step run_shutdown. run_step run_search.
  task_step task_shuttingDown (@nil prog).
  task_step task_shuttingDown (@nil prog).
  task_step task_go (@nil prog).
  task_step task_shuttingDown (@nil prog).
  task_step task_go (@nil prog).
  task_step task_done (@nil prog).
  task_step task_shuttingDown (@nil prog).
  task_step task_keyGen (@nil prog).
  task_step task_send (@nil prog).
  task_step task_done (@nil prog).
  task_step task_shuttingDown (@nil prog).
  task_step task_keyGen (@nil prog).
  task_step task_send (@nil prog).
  task_step task_done (@nil prog).
  run_step consume_recv. run_step consume_recv.
  run_step run_wait. run_step run_close.
  apply rtc_refl.
Qed.

Lemma ex_stuck_reachable caller :
  reachable (Cfg_defaults 8) (λ _, inr ex_single) (ex_cfg 1) caller GetResults ex_stuck.
Proof.
  unfold reachable.
  run_step run_consumer. run_step run_shutdown. run_step run_search.
  task_step task_shuttingDown (@nil prog).
  task_step task_shuttingDown (@nil prog).
  apply rtc_refl.
Qed.

Lemma ex_batch_error_end_reachable :
  reachable (Cfg_defaults 8) (λ _, inr ex_single) ex_cfg_empty receiving GetResults
            ex_batch_error_end.
Proof.
  unfold reachable.
  run_step run_consumer. run_step run_shutdown. run_step run_search.
  task_step task_shuttingDown (@nil prog).
  task_step task_shuttingDown (@nil prog).
  task_step task_go (@nil prog).
  task_step task_done (@nil prog).
  task_step task_shuttingDown (@nil prog).
  task_step task_keyGen (@nil prog).
  task_step task_done (@nil prog).
  run_step run_wait. run_step run_close.
  run_step consume_end.
  eapply rtc_l.
  { eexists. eapply consume_results with (res := mk_slice []).
    - reflexivity.
    - reflexivity.
    - exists []. split; [|reflexivity].
      unfold MapOf.Range. vm_compute. reflexivity. }
  simpl. run_step get_results.
  apply rtc_refl.
Qed.

Lemma ex_deadlock_reachable cl :
  has_sink cl = true →
  reachable (Cfg_defaults 8) ex_lstat (ex_cfg 1) receiving cl ex_deadlock.
Proof.
  intros Hs. unfold reachable, has_sink in *.
  run_step run_consumer. run_step run_shutdown. run_step run_search.
  task_step task_shuttingDown (@nil prog).
  task_step task_shuttingDown (@nil prog).
  run_step shutdown_notify. run_step signal. run_step shutdown_recv.
  run_step shutdown_close.
  apply rtc_refl.
Qed.

Lemma ex_vanished_end_reachable :
  reachable (Cfg_defaults 8) (λ _, inr ex_vanished) (ex_cfg 4) receiving (StreamResults true)
            ex_vanished_end.
Proof.
  unfold reachable.
  run_step run_consumer. run_step run_shutdown. run_step run_search.
  task_step task_shuttingDown (@nil prog).
  task_step task_shuttingDown (@nil prog).
  task_step task_done (@nil prog).
  run_step run_wait. run_step run_close.
  run_step consume_end. run_step consume_close.
  apply rtc_refl.
Qed.

(** ** The aggregator's emission rule *)

Section emission.

Variable defaults : Cfg → Cfg.
Variable lstat : string → PathError + DirEntry.
Variable c0 : Cfg.
Variable caller : list string → bool.

#[local] Abbreviation step := (step defaults lstat c0 caller (StreamResults true)).

(** C1: in streaming mode, a pair whose key is stored with exactly one path
    makes the aggregator emit that path and then the new one; a pair whose
    key is stored with more than one path makes it emit the new path only;
    a pair with a new key is stored as a group of one and nothing is
    emitted.  What is emitted goes to the output channel: the receive step
    queues exactly these paths, and each send step hands the next queued
    path to the caller. *)
Theorem C1_streaming_emission (m : gmap string (list string)) (p : pair) :
  (∀ first, MapOf.Load m (key p) = Some [first] →
     consumePair true m p =
     (MapOf.Store m (key p) [first; path p], [first; path p])) ∧
  (∀ paths, MapOf.Load m (key p) = Some paths → 1 < length paths →
     consumePair true m p =
     (MapOf.Store m (key p) (paths ++ [path p]), [path p])) ∧
  (MapOf.Load m (key p) = None →
     consumePair true m p = (MapOf.Store m (key p) [path p], [])) ∧
  (∀ s s' rest, consumer s = C_range m → pairs s = p :: rest →
     step Aggregator s s' →
     dupes s' = dupes s ∧
     pending (consumer s') = (consumePair true m p).2 ∧
     held_map (consumer s') = Some (consumePair true m p).1) ∧
  (∀ s s' x out m', consumer s = C_send (x :: out) m' →
     step Aggregator s s' →
     dupes s' = dupes s ++ [x] ∧ pending (consumer s') = out).
Proof.
  split_and!.
  - intros first Hm. unfold consumePair. by rewrite Hm.
  - intros paths Hm Hl. unfold consumePair. rewrite Hm.
    by destruct paths as [|? [|? ?]]; simpl in *; try lia.
  - intros Hm. unfold consumePair. by rewrite Hm.
  - intros s s' rest Hc Hp Hstep.
    inversion Hstep; subst; simpl; try congruence.
    rewrite Hc in *. rewrite Hp in *. simplify_eq.
    by rewrite pending_after_send, held_map_after_send.
  - intros s s' x out m' Hc Hstep.
    inversion Hstep; subst; simpl; try congruence.
    rewrite Hc in *. simplify_eq. by rewrite pending_after_send.
Qed.

End emission.

Lemma C1_witness :
  consumePair true {["k" := ["a"]]} (Pair "k" "b") =
  (<["k" := ["a"; "b"]]> {["k" := ["a"]]}, ["a"; "b"]).
Proof.
  apply (C1_streaming_emission (Cfg_defaults 8) ex_lstat (ex_cfg 4) receiving
           {["k" := ["a"]]} (Pair "k" "b")).
  reflexivity.
Defined.

(** ** The batch result *)

Lemma ex_pairs_Range :
  MapOf.Range (consumed false ex_pairs) [("k2", ["b"; "d"]); ("k1", ["a"; "c"])].
Proof. unfold MapOf.Range. vm_compute. apply perm_swap. Qed.

Lemma C3_witness :
  ∃ keys, NoDup keys ∧ (∀ k, k ∈ keys ↔ 1 < length (group k ex_pairs)) ∧
          mk_slice ["b"; "d"; "a"; "c"] =
          mk_slice (concat ((λ k, group k ex_pairs) <$> keys)).
Proof.
  apply (C3_batch_groups ex_pairs (mk_slice ["b"; "d"; "a"; "c"])).
  exists [("k2", ["b"; "d"]); ("k1", ["a"; "c"])].
  split; [apply ex_pairs_Range | reflexivity].
Defined.

(** The groups need not come in discovery order: for the pairs
    [(k1,a) (k1,c) (k2,b) (k2,d)] the result may list the group of [k2]
    first. *)
Lemma C3_discovery_order_fails :
  ∃ res, processResults (consumed false ex_pairs) res ∧
         res ≠ mk_slice (discovery_order ex_pairs).
Proof.
  exists (mk_slice ["b"; "d"; "a"; "c"]). split.
  - exists [("k2", ["b"; "d"]); ("k1", ["a"; "c"])].
    split; [apply ex_pairs_Range | reflexivity].
  - vm_compute. discriminate.
Qed.

(** ** Errors of the walk and of the producers *)

(** C6, as the code has it: an error that [WalkDir] reports to the callback
    is returned by the callback unless the search is shutting down; hence,
    when nothing shuts down, [search] fails with the error of [os.Lstat] on
    the root, or else with the first [os.ReadDir] error among the
    directories that are not pruned, and succeeds when there is none; a
    regular file whose [Info()] fails is skipped like an empty file; and
    while shutting down the callback returns nil whatever error it is
    given. *)
Theorem C6_walk_errors (lstat : string → PathError + DirEntry) (c : Cfg) :
  (∀ file de e,
     exec false (walkFn c file de (Some e)) = Outcome (Some e) [] [] []) ∧
  (∀ dir,
     result (exec false (search lstat dir c)) =
     match lstat dir with
     | inl e => Some (ofPathError e)
     | inr d => ofPathError <$> head (walk_errors c dir d)
     end) ∧
  (∀ file name e dirs rerr,
     exec false (walkFn c file (Some (Entry name ModeRegular (inl e) dirs rerr)) None) =
     idle) ∧
  (∀ file de err, exec true (walkFn c file de err) = idle).
Proof.
  split_and!.
  - done.
  - intros dir. apply result_search.
  - intros file name e dirs rerr. simpl. by destruct (skipFile c file).
  - intros. apply exec_true_walkFn.
Qed.

(** A file that cannot be stat'ed does not make the search fail: the walk
    of [ex_vanished] submits nothing and returns nil, and the streaming
    search of it runs to its end and returns nil. *)
Lemma C6_stat_failure_skipped :
  exec false (search (λ _, inr ex_vanished) "root" (ex_cfg 4)) = idle ∧
  reachable (Cfg_defaults 8) (λ _, inr ex_vanished) (ex_cfg 4) receiving (StreamResults true)
            ex_vanished_end ∧
  main ex_vanished_end = M_ret None.
Proof. split_and!; [reflexivity | apply ex_vanished_end_reachable | reflexivity]. Qed.

Lemma first_error_is_Some rs e : Some e ∈ rs → is_Some (first_error rs).
Proof.
  induction rs as [|r rs IH] using rev_ind; [by intros ?%elem_of_nil|].
  rewrite first_error_snoc. intros [Hin| <-%list_elem_of_singleton]%elem_of_app.
  - destruct (IH Hin) as [e' He]. rewrite He. by eexists.
  - destruct (first_error rs); by eexists.
Qed.

(** C7, as the code has it: when the key generator returns an empty key and
    no error, the producer calls nothing else, sends no pair, and fails
    with a message error, "key generator returned an empty key for path: "
    followed by the path; an error of the key generator is returned as it
    is; and once a task has returned an error, the error that [run] returns
    is not nil. *)
Theorem C7_empty_key (defaults : Cfg → Cfg) (lstat : string → PathError + DirEntry)
    (c0 : Cfg) (caller : list string → bool) (cl : call) (file : string)
    (keyGen : KeyGeneratorFunc) :
  (keyGen file = ("", None) →
     exec false (producePair file keyGen) =
     Outcome (Some (errorString ("key generator returned an empty key for path: " +:+ file)))
             [] [] [file]) ∧
  (∀ k e, keyGen file = (k, Some e) →
     exec false (producePair file keyGen) = Outcome (Some e) [] [] [file]) ∧
  (∀ s e err, reachable defaults lstat c0 caller cl s → Some e ∈ finished s →
     run_err (main s) = Some err → has_sink cl = true → is_Some err).
Proof.
  split_and!.
  - intros Hk. simpl. by rewrite Hk.
  - intros k e Hk. simpl. by rewrite Hk.
  - intros s e err Hr Hin Herr Hs.
    rewrite (inv_run_err _ _ _ (reachable_invariant _ _ _ _ _ _ Hr) _ Herr Hs).
    by eapply first_error_is_Some.
Qed.

Lemma C7_witness :
  exec false (producePair "f" ex_keyGen_empty) =
  Outcome (Some (errorString "key generator returned an empty key for path: f"))
          [] [] ["f"].
Proof.
  apply (C7_empty_key (Cfg_defaults 8) ex_lstat (ex_cfg 4) receiving GetResults "f"
           ex_keyGen_empty).
  reflexivity.
Defined.

(** The error for an empty key cannot be told from an error of the key
    generator: the generator [ex_keyGen_failing] fails with the very error
    the producer makes for [ex_keyGen_empty]. *)
Lemma C7_same_error :
  (ex_keyGen_empty "f").2 = None ∧
  (ex_keyGen_failing "f").2 ≠ None ∧
  result (exec false (producePair "f" ex_keyGen_empty)) =
  result (exec false (producePair "f" ex_keyGen_failing)).
Proof. split_and!; [reflexivity | discriminate | reflexivity]. Qed.

(** ** A single worker *)

Lemma ex_blocked_walk_Go :
  ∃ k, ex_blocked_walk = Go (producePair "root/a" ex_keyGen) k.
Proof. eexists. reflexivity. Qed.

(** C8, where the code fails: with a worker limit of one, the walk holds
    the only slot of the pool when it calls [g.Go] for the first file, so
    the call never returns.  In the state reached, an interrupt has been
    delivered and the shutdown channel is closed; [run] has not returned;
    and no goroutine can take a step. *)
Theorem C8_single_worker_deadlock (cl : call) (a : actor) (s' : state) :
  has_sink cl = true →
  reachable (Cfg_defaults 8) ex_lstat (ex_cfg 1) receiving cl ex_deadlock ∧
  shutdown ex_deadlock = SdClosed ∧
  main ex_deadlock = M_wait ∧
  ¬ step (Cfg_defaults 8) ex_lstat (ex_cfg 1) receiving cl a ex_deadlock s'.
Proof.
  intros Hs. split_and!; [by apply ex_deadlock_reachable | done | done |].
  destruct ex_blocked_walk_Go as [k Hk].
  intros Hstep. inversion Hstep; subst; simpl in *; try done;
    try (destruct l1 as [|? [|? ?]]; simplify_eq/=; congruence).
  unfold has_room in *. lia.
Qed.

Lemma C8_witness :
  ¬ step (Cfg_defaults 8) ex_lstat (ex_cfg 1) receiving GetResults Worker ex_deadlock init.
Proof.
  apply (C8_single_worker_deadlock GetResults Worker init). reflexivity.
Defined.

Lemma ex_stuck_Go :
  ∃ k, tasks ex_stuck = [Go (producePair "root/a" ex_keyGen) k].
Proof. eexists. reflexivity. Qed.

(** C10, where the code fails: [GetResults] on a directory that holds a
    single, non-empty regular file, with a worker limit of one and whatever
    the caller does.  No key can have two paths, yet [GetResults] never
    returns an empty slice, because it never returns: the walk holds the
    only slot of the pool when it calls [g.Go] for the file, so in every
    continuation of the run [run] is still in [g.Wait()], no pair has been
    sent and no result has been handed over. *)
Theorem C10_single_worker_never_returns (caller : list string → bool) (s' : state) :
  reachable (Cfg_defaults 8) (λ _, inr ex_single) (ex_cfg 1) caller GetResults ex_stuck ∧
  (rtc (step_any (Cfg_defaults 8) (λ _, inr ex_single) (ex_cfg 1) caller GetResults)
       ex_stuck s' →
   main s' = M_wait ∧ ¬ returned GetResults (main s') ∧ sent s' = [] ∧
   (∀ k, length (group k (sent s')) ≤ 1)).
Proof.
  split; [apply ex_stuck_reachable|].
  intros Hrtc. destruct ex_stuck_Go as [k Hk].
  eapply single_worker_blocked in Hrtc as (Hm & _ & Hs);
    [|reflexivity|reflexivity|exact Hk].
  rewrite Hm, Hs. simpl. split_and!; [done|tauto|done|]. intros k'. simpl. lia.
Qed.

Lemma C10_witness : ¬ returned GetResults (main ex_stuck).
Proof.
  apply (C10_single_worker_never_returns receiving ex_stuck). apply rtc_refl.
Defined.

(** ** The claims on concrete runs *)

Lemma C2_witness : received ex_stream_end = sent ex_stream_end.
Proof.
  apply (C2_close_after_drain (Cfg_defaults 8) ex_lstat (ex_cfg 4) receiving
           (StreamResults true) ex_stream_end ex_stream_end_reachable).
  exact I.
Defined.

(** The loop need not terminate after the pool has drained: when the caller
    of [StreamResults] does not receive, the pool drains, [run] closes the
    pair channel and returns, and the aggregator stays inside its loop, at
    its send, in every continuation of the run. *)
Lemma C2_unreceived_loop_never_ends :
  reachable (Cfg_defaults 8) ex_lstat (ex_cfg 4) deaf (StreamResults true) ex_unreceived ∧
  drained ex_unreceived ∧
  pairs_closed ex_unreceived = true ∧
  ∀ s', rtc (step_any (Cfg_defaults 8) ex_lstat (ex_cfg 4) deaf (StreamResults true))
            ex_unreceived s' →
        in_loop (consumer s') ∧ ¬ past_loop (consumer s').
Proof.
  split; [apply ex_unreceived_reachable|].
  split; [split; [simpl; lia|done]|].
  split; [done|].
  intros s' Hrtc.
  eapply blocked_send_forever in Hrtc as [Hc _]; [|done|reflexivity|done].
  rewrite Hc. simpl. tauto.
Qed.

Lemma C4_witness : dupes ex_stream_end = streamed (sent ex_stream_end).
Proof.
  apply (C4_returns_after_wait (Cfg_defaults 8) ex_lstat (ex_cfg 4) receiving
           ex_stream_end ex_stream_end_reachable).
  reflexivity.
Defined.

(** After [run] has started the aggregator, the listener and the walk,
    [StreamResults] has not returned and cannot go on: it waits in
    [g.Wait()] for the walk. *)
Lemma C4_blocks_in_wait :
  reachable (Cfg_defaults 8) ex_lstat (ex_cfg 4) receiving (StreamResults true) ex_launched ∧
  consumer ex_launched ≠ C_off ∧
  listener ex_launched ≠ L_off ∧
  roots ex_launched = ["root"] ∧
  ¬ returned (StreamResults true) (main ex_launched) ∧
  ∀ s', ¬ step (Cfg_defaults 8) ex_lstat (ex_cfg 4) receiving (StreamResults true) Main
              ex_launched s'.
Proof.
  split_and!; [apply ex_launched_reachable | done | done | done | simpl; tauto |].
  intros s' Hstep. inversion Hstep; subst; simpl in *; done.
Qed.

Lemma C5_witness : roots ex_stream_end = [Path (cfg (Cfg_defaults 8) (ex_cfg 4))].
Proof.
  apply (proj1 (proj2 (C5_one_root (Cfg_defaults 8) ex_lstat (ex_cfg 4) receiving
           (StreamResults true) ex_stream_end ex_stream_end_reachable))).
  - simpl. lia.
  - reflexivity.
Defined.

(** No configuration makes [run] walk two roots. *)
Lemma C5_two_roots_never_walked :
  ¬ ∃ defaults lstat c0 caller cl s,
      reachable defaults lstat c0 caller cl s ∧ "a" ∈ roots s ∧ "b" ∈ roots s.
Proof.
  intros (defaults & lstat & c0 & caller & cl & s & Hr & Ha & Hb).
  destruct (roots_single _ _ _ _ _ _ Hr) as [Hroots|Hroots]; rewrite Hroots in *.
  - by apply elem_of_nil in Ha.
  - apply list_elem_of_singleton in Ha, Hb. congruence.
Qed.

Lemma C9_witness : NoDup (dupes ex_stream_end ++ pending (consumer ex_stream_end)).
Proof.
  apply (C9_at_most_once (Cfg_defaults 8) ex_lstat (ex_cfg 4) receiving
           ex_stream_end ex_stream_end_reachable).
  simpl. apply NoDup_cons. split; [|apply NoDup_singleton].
  by intros ?%list_elem_of_singleton.
Defined.

Lemma X11_witness : mk_slice [] ≠ nil_slice ∧ mk_slice [] = mk_slice [].
Proof.
  destruct (proj1 (X11_empty_not_nil (Cfg_defaults 8) (λ _, inr ex_single) ex_cfg_empty
              receiving ex_batch_error_end ex_batch_error_end_reachable)
              (mk_slice []) (Some ex_empty_key_error) eq_refl) as [Hnil Hempty].
  split; [exact Hnil|]. apply Hempty. intros k. simpl. lia.
Defined.

(** * Further properties of the code *)

Section more.

Variable defaults : Cfg → Cfg.
Variable lstat : string → PathError + DirEntry.
Variable c0 : Cfg.
Variable caller : list string → bool.

#[local] Abbreviation cfg := (cfg defaults c0).

(** ** run without a sink *)

(** X1: called with neither channel, [run] starts nothing: no aggregator,
    no signal listener and no walk, and the pair channel stays open; its
    one step returns the error "either resultsChan or dupesChan must be
    provided". *)
Theorem X1_no_sink s :
  reachable defaults lstat c0 caller (StreamResults false) s →
  (main s = M_run ∨ main s = M_ret (Some errNoSink)) ∧
  tasks s = [] ∧ consumer s = C_off ∧ listener s = L_off ∧
  pairs_closed s = false ∧ roots s = [] ∧
  (main s = M_run →
   ∃ s', step defaults lstat c0 caller (StreamResults false) Main s s' ∧
         main s' = M_ret (Some (errorString "either resultsChan or dupesChan must be provided"))).
Proof.
  intros Hr. pose proof (reachable_invariant _ _ _ _ _ _ Hr) as Hinv.
  destruct (inv_nosink _ _ _ Hinv eq_refl) as (Hm & Ht & _ & _ & Hroots & Hl).
  split_and!; try done.
  - apply (inv_off _ _ _ Hinv). by right.
  - destruct (pairs_closed s) eqn:Hc; [|done].
    by apply (inv_closed _ _ _ Hinv) in Hc as [_ ?].
  - intros Hrun. eexists. split; [by apply run_sanity|done].
Qed.

Section any_call.

Variable cl : call.

#[local] Abbreviation step := (step defaults lstat c0 caller cl).
#[local] Abbreviation step_any := (step_any defaults lstat c0 caller cl).
#[local] Abbreviation reachable := (reachable defaults lstat c0 caller cl).

(** ** The worker limit *)

Lemma pool_bound_step a s s' :
  step a s s' →
  (0 ≤ Workers cfg → Z.of_nat (length (tasks s)) ≤ Workers cfg)%Z →
  (0 ≤ Workers cfg → Z.of_nat (length (tasks s')) ≤ Workers cfg)%Z.
Proof.
  intros Hstep Hb Hw. specialize (Hb Hw).
  destruct Hstep; simpl; rw; unfold has_room in *;
    rewrite ?length_app in *; simpl in *;
    rewrite ?length_app in *; simpl in *; lia.
Qed.

(** X2: the pool never runs more tasks than the worker limit, when there
    is one. *)
Theorem X2_worker_limit s :
  reachable s → (0 ≤ Workers cfg)%Z →
  (Z.of_nat (length (tasks s)) ≤ Workers cfg)%Z.
Proof.
  intros Hr. revert s Hr.
  apply (rtc_ind_r (λ s, (0 ≤ Workers cfg → Z.of_nat (length (tasks s)) ≤ Workers cfg)%Z)).
  - simpl. lia.
  - intros s s' _ [a Hstep] IH. by eapply pool_bound_step.
Qed.

(** ** The error run returns *)

Lemma first_error_None rs : first_error rs = None ↔ ∀ r, r ∈ rs → r = None.
Proof.
  induction rs as [|r rs IH] using rev_ind.
  - split; [by intros _ ? ?%elem_of_nil|done].
  - rewrite first_error_snoc. split.
    + intros Hf r' [Hin| ->%list_elem_of_singleton]%elem_of_app.
      * apply IH; [|done]. by destruct (first_error rs).
      * by destruct (first_error rs).
    + intros Hall. rewrite (proj2 IH).
      * apply Hall, elem_of_app. right. by left.
      * intros r' Hin. apply Hall, elem_of_app. by left.
Qed.

(** X3: the error that [run] returns from [g.Wait()] is nil exactly when
    every task of the pool returned nil. *)
Theorem X3_nil_iff_all_nil s err :
  reachable s → has_sink cl = true → run_err (main s) = Some err →
  err = None ↔ ∀ r, r ∈ finished s → r = None.
Proof.
  intros Hr Hs Herr.
  rewrite (inv_run_err _ _ _ (reachable_invariant _ _ _ _ _ _ Hr) _ Herr Hs).
  apply first_error_None.
Qed.

(** ** The shutdown channel *)

Lemma closed_step a s s' :
  step a s s' → shutdown s = SdClosed → shutdown s' = SdClosed.
Proof.
  intros Hstep Hc. destruct Hstep; simpl; try done; try congruence.
  by rewrite Hc.
Qed.

Lemma listener_shutdown s :
  reachable s →
  (phase (main s) ≤ 1 → listener s = L_off) ∧
  (listener s = L_off → shutdown s = SdEmpty) ∧
  (shutdown s = SdClosed ↔ listener s = L_done).
Proof.
  intros Hr. revert s Hr.
  apply (rtc_ind_r (λ s,
    (phase (main s) ≤ 1 → listener s = L_off) ∧
    (listener s = L_off → shutdown s = SdEmpty) ∧
    (shutdown s = SdClosed ↔ listener s = L_done))).
  { simpl. split_and!; try done. }
  intros s s' _ [a Hstep] (Hoff & Hempty & Hclosed).
  destruct Hstep; simpl; rw; try (split_and!; done);
    try (split_and!; first [done | lia | (intros; lia)]);
    try (split_and!; [intros; (by apply Hoff) || lia | done | done]).
  all: try (destruct (shutdown s) eqn:Hsd; simpl; split_and!; try done;
            intros Hl; specialize (Hempty Hl); congruence).
  all: try (split_and!; [intros; apply Hoff; lia | done | done]).
  all: try (split_and!; [intros Hp; specialize (Hoff Hp); congruence | done |
                         split; [done | intros; congruence]]).
  - assert (shutdown s = SdEmpty) as Hsd by (apply Hempty, Hoff; lia).
    split_and!; [lia | done | by rewrite Hsd].
  - destruct (shutdown s) eqn:Hsd; simpl.
    + done.
    + split_and!; [done| done |].
      split; [done|]. intros Hl. by apply Hclosed in Hl.
    + done.
  - split_and!; [intros Hp; specialize (Hoff Hp); congruence | done |].
    split; [|done]. intros Hc. apply Hclosed in Hc. congruence.
  - split_and!; [done | intros Hl; destruct H; congruence |].
    split; [done|]. intros Hl. destruct H; congruence.
Qed.

Lemma closed_by_listener s : reachable s → shutdown s = SdClosed → listener s = L_done.
Proof. intros Hr. apply (listener_shutdown s Hr). Qed.

(** X4: the shutdown channel is closed by [gracefulShutdown] alone, and
    once it is closed it stays closed: from then on every cancellation
    check of the walk and of the producers answers true and leaves the
    channel as it is. *)
Theorem X4_shutdown_is_final s s' :
  reachable s → shutdown s = SdClosed → rtc step_any s s' →
  listener s = L_done ∧ shutdown s' = SdClosed ∧
  shuttingDown (shutdown s') = (true, SdClosed).
Proof.
  intros Hr Hc Hs'. split; [by apply closed_by_listener|].
  assert (shutdown s' = SdClosed) as ->; [|done].
  induction Hs' as [|s s1 s' [a Hstep] _ IH]; [done|].
  apply IH; [|by eapply closed_step].
  eapply rtc_r; [exact Hr|by eexists].
Qed.

End any_call.

End more.

Lemma ex_no_sink_end_reachable :
  reachable (Cfg_defaults 8) ex_lstat (ex_cfg 4) receiving (StreamResults false) ex_no_sink_end.
Proof. unfold reachable. run_step run_sanity. apply rtc_refl. Qed.

Lemma X1_witness : consumer ex_no_sink_end = C_off.
Proof.
  apply (X1_no_sink (Cfg_defaults 8) ex_lstat (ex_cfg 4) receiving ex_no_sink_end
           ex_no_sink_end_reachable).
Defined.

Lemma X2_witness :
  (Z.of_nat (length (tasks ex_launched)) ≤ Workers (cfg (Cfg_defaults 8) (ex_cfg 4)))%Z.
Proof.
  apply (X2_worker_limit (Cfg_defaults 8) ex_lstat (ex_cfg 4) receiving (StreamResults true)
           ex_launched ex_launched_reachable).
  vm_compute. discriminate.
Defined.

Lemma X3_witness :
  @None error = None ↔ ∀ r, r ∈ finished ex_stream_end → r = None.
Proof.
  apply (X3_nil_iff_all_nil (Cfg_defaults 8) ex_lstat (ex_cfg 4) receiving (StreamResults true)
           ex_stream_end None ex_stream_end_reachable); reflexivity.
Defined.

Lemma X4_witness :
  listener ex_deadlock = L_done ∧ shutdown ex_deadlock = SdClosed ∧
  shuttingDown (shutdown ex_deadlock) = (true, SdClosed).
Proof.
  apply (X4_shutdown_is_final (Cfg_defaults 8) ex_lstat (ex_cfg 1) receiving GetResults
           ex_deadlock ex_deadlock (ex_deadlock_reachable GetResults eq_refl)).
  - reflexivity.
  - apply rtc_refl.
Defined.

(** ** Streaming and batch report the same paths *)

Section same_paths.

Implicit Types (m : gmap string (list string)) (ps : list pair).

#[local] Instance duplicates_Permutation : Proper ((≡ₚ) ==> (≡ₚ)) duplicates.
Proof. intros l1 l2 Hl. unfold duplicates. by rewrite Hl. Qed.

Lemma duplicates_cons k v enum :
  duplicates ((k, v) :: enum) =
  (if decide (1 < length v) then v else []) ++ duplicates enum.
Proof. unfold duplicates. rewrite filter_cons. simpl. by case_decide. Qed.

Lemma streamed_duplicates ps : streamed ps ≡ₚ duplicates (map_to_list (consumed true ps)).
Proof.
  induction ps as [|p ps IH] using rev_ind.
  - unfold consumed. simpl. by rewrite map_to_list_empty.
  - rewrite streamed_snoc, consumed_snoc, IH. unfold emission, consumePair, MapOf.Load.
    pose proof (consumed_lookup true ps (key p)) as Hk. rewrite Hk.
    case_decide as Hg; simpl; unfold MapOf.Store.
    + rewrite Hg, app_nil_r.
      by rewrite (map_to_list_insert _ _ _ Hk), duplicates_cons.
    + set (g := group (key p) ps) in *. set (m := consumed true ps) in *.
      rewrite <-(map_to_list_delete m _ _ Hk), <-(insert_delete_eq m).
      rewrite map_to_list_insert by apply lookup_delete_eq.
      rewrite !duplicates_cons.
      clearbody g m. destruct g as [|f [|f' g']]; [done| |]; simpl.
      * by rewrite (Permutation_app_comm (duplicates _)).
      * repeat case_decide; try (simpl in *; lia).
        rewrite <-!app_assoc. simpl. do 2 f_equiv.
        apply Permutation_app_head. symmetry. apply Permutation_cons_append.
Qed.

Lemma processResults_duplicates m res :
  processResults m res → elems_of res ≡ₚ duplicates (map_to_list m).
Proof.
  intros (enum & Hr & ->). rewrite processEntries_spec. simpl.
  unfold MapOf.Range in Hr. by rewrite <-Hr.
Qed.

(** X5: for the same pairs, whatever the order in which [Range] goes
    through the map, the batch result holds the same paths, each as often,
    as the streaming mode sends: the two are permutations of each other. *)
Theorem X5_stream_batch_same_paths ps res :
  processResults (consumed false ps) res → streamed ps ≡ₚ elems_of res.
Proof.
  intros Hres. rewrite (processResults_duplicates _ _ Hres), <-consumed_mode.
  apply streamed_duplicates.
Qed.

Lemma elem_of_concat {A} (x : A) (ls : list (list A)) :
  x ∈ concat ls ↔ ∃ l, x ∈ l ∧ l ∈ ls.
Proof.
  rewrite list_elem_of_In, in_concat. split.
  - intros (l & Hl & Hx). exists l. by rewrite !list_elem_of_In.
  - intros (l & Hx & Hl). exists l. by rewrite <-!list_elem_of_In.
Qed.

Lemma elem_of_duplicates m x :
  x ∈ duplicates (map_to_list m) ↔ ∃ k v, m !! k = Some v ∧ 1 < length v ∧ x ∈ v.
Proof.
  unfold duplicates. rewrite elem_of_concat. split.
  - intros (v & Hx & Hv). apply list_elem_of_fmap in Hv as ([k v'] & -> & Hkv).
    apply list_elem_of_filter in Hkv as [Hl Hkv].
    apply elem_of_map_to_list in Hkv. by exists k, v'.
  - intros (k & v & Hm & Hl & Hx). exists v. split; [done|].
    apply list_elem_of_fmap. exists (k, v). split; [done|].
    apply list_elem_of_filter. split; [done|]. by apply elem_of_map_to_list.
Qed.

(** X6: the stream holds exactly the duplicates: a path is sent in
    streaming mode if and only if its key was consumed with at least two
    paths. *)
Theorem X6_streamed_iff_duplicate ps x :
  x ∈ streamed ps ↔ ∃ k, x ∈ group k ps ∧ 1 < length (group k ps).
Proof.
  rewrite streamed_duplicates, elem_of_duplicates. split.
  - intros (k & v & Hm & Hl & Hx). rewrite consumed_lookup in Hm.
    case_decide; [done|]. injection Hm as <-. by exists k.
  - intros (k & Hx & Hl). exists k, (group k ps). split_and!; [|done..].
    rewrite consumed_lookup. case_decide as Hg; [|done].
    rewrite Hg in Hl. simpl in Hl. lia.
Qed.

End same_paths.

Lemma X5_witness : streamed ex_pairs ≡ₚ elems_of (mk_slice ["b"; "d"; "a"; "c"]).
Proof.
  apply (X5_stream_batch_same_paths ex_pairs (mk_slice ["b"; "d"; "a"; "c"])).
  exists [("k2", ["b"; "d"]); ("k1", ["a"; "c"])].
  split; [apply ex_pairs_Range | reflexivity].
Defined.

(** ** The files of a walk *)

Section walk.

Implicit Types (c : Cfg) (d : DirEntry).

Lemma walker_walkFn c file d :
  exec false (walkFn c file (Some d) None) =
  Outcome (if IsDir d && skipDir c file then Some SkipDir else None)
          (if IsDir d then [] else
             (λ f, producePair f (KeyGenerator c)) <$> accepted c file d) [] [].
Proof.
  destruct d as [name mode info dirs rerr]. simpl.
  destruct mode; simpl; try done.
  - by destruct (skipDir c file).
  - destruct (skipFile c file); simpl; [done|].
    destruct info as [|size]; [done|]. by case_decide.
Qed.

Lemma walker_walkEntries c file dirs :
  Forall (λ d1, ∀ f, walk_errors c f d1 = [] →
            exec false (walkDir f d1 (walkFn c)) =
            Outcome None ((λ f, producePair f (KeyGenerator c)) <$> accepted c f d1)
                    [] []) dirs →
  omap (λ d', (ReadDir d').2)
       (flat_map (λ d1, walked_dirs c (Join file (Name d1)) d1) dirs) = [] →
  exec false (walkEntries (λ d1, walkDir (Join file (Name d1)) d1 (walkFn c)) dirs) =
  Outcome None
    ((λ f, producePair f (KeyGenerator c)) <$>
       flat_map (λ d1, accepted c (Join file (Name d1)) d1) dirs) [] [].
Proof.
  induction 1 as [|d1 dirs H1 _ IH]; [done|].
  simpl. rewrite omap_app. intros [He1 He]%app_eq_nil.
  rewrite exec_bind, H1 by done. simpl. rewrite IH by done.
  unfold then_outcome. simpl. by rewrite fmap_app.
Qed.

Lemma walker_walkDir c d :
  ∀ file, walk_errors c file d = [] →
    exec false (walkDir file d (walkFn c)) =
    Outcome None ((λ f, producePair f (KeyGenerator c)) <$> accepted c file d) [] [].
Proof.
  induction d as [name mode info dirs rerr IH] using DirEntry_tree_ind.
  intros file. unfold walk_errors.
  set (d := Entry name mode info dirs rerr).
  change (walkDir file d (walkFn c)) with
    (bind (walkFn c file (Some d) None) (λ err,
       if bool_decide (err ≠ None) || negb (IsDir d) then skipped err d
       else
         bind (match rerr with
               | Some e => walkFn c file (Some d) (Some (ofPathError e))
               | None => Ret None
               end) (λ err,
           if bool_decide (err ≠ None) then skipped err d
           else walkEntries (λ d1, walkDir (Join file (Name d1)) d1 (walkFn c)) dirs))).
  change (walked_dirs c file d) with
    (if IsDir d && negb (skipDir c file)
     then d :: flat_map (λ d1, walked_dirs c (Join file (Name d1)) d1) dirs
     else []).
  change (accepted c file d) with
    (if IsDir d then
       if skipDir c file then []
       else flat_map (λ d1, accepted c (Join file (Name d1)) d1) dirs
     else if IsRegular d && negb (skipFile c file) then
       match info with
       | inr size => if decide (size = 0%Z) then [] else [file]
       | inl _ => []
       end
     else []).
  rewrite exec_bind, walker_walkFn.
  change (accepted c file d) with
    (if IsDir d then
       if skipDir c file then []
       else flat_map (λ d1, accepted c (Join file (Name d1)) d1) dirs
     else if IsRegular d && negb (skipFile c file) then
       match info with
       | inr size => if decide (size = 0%Z) then [] else [file]
       | inl _ => []
       end
     else []).
  simpl.
  destruct (IsDir d) eqn:Hdir; simpl.
  - destruct (skipDir c file) eqn:Hskip; simpl.
    + intros _. unfold skipped. by rewrite Hdir.
    + destruct rerr as [e|]; simpl; [done|].
      intros He. rewrite walker_walkEntries by done. done.
  - intros _. unfold skipped. rewrite ?andb_false_r. unfold then_outcome. simpl.
    rewrite ?Hdir, ?andb_false_r. simpl. by rewrite app_nil_r.
Qed.

(** X7: a walk during which nothing shuts down and every directory can be
    read returns nil and hands to the pool one [producePair] task for each
    regular file that [skipFile] keeps, whose [Info()] succeeds and whose
    size is not zero, outside the directories [skipDir] prunes, in the order
    of the walk; the walk itself sends no pair and calls no key generator. *)
Theorem X7_tasks_of_walk lstat c dir d :
  lstat dir = inr d →
  walk_errors c dir d = [] →
  exec false (search lstat dir c) =
  Outcome None ((λ f, producePair f (KeyGenerator c)) <$> accepted c dir d) [] [].
Proof.
  intros Hl He. unfold search, WalkDir. rewrite exec_bind, Hl, walker_walkDir by done.
  simpl. unfold then_outcome. simpl. by rewrite app_nil_r.
Qed.

End walk.

(** ** What reaches the pair channel *)

Section sends.

Implicit Types (c : Cfg) (d : DirEntry) (P Q : pair → Prop).

Lemma sends_only_mono P Q p : (∀ q, P q → Q q) → sends_only P p → sends_only Q p.
Proof.
  intros HPQ. induction p as [r|k IH|g file k IH|q k IH|t IHt k IH]; simpl; auto.
  - intros [? ?]. auto.
  - intros [? ?]. auto.
Qed.

Lemma sends_only_bind P p f :
  sends_only P p → (∀ r, sends_only P (f r)) → sends_only P (bind p f).
Proof.
  intros Hp Hf. induction p as [r|k IH|g file k IH|q k IH|t IHt k IH]; simpl in *; auto.
  - destruct Hp. auto.
  - destruct Hp. auto.
Qed.

Lemma sends_only_skipped P err d : sends_only P (skipped err d).
Proof. unfold skipped. by destruct (_ && _). Qed.

Lemma sends_only_producePair c file :
  sends_only (λ q, path q = file ∧ keyed_by c q) (producePair file (KeyGenerator c)).
Proof.
  simpl. intros [|]; simpl; [done|].
  destruct (KeyGenerator c file) as [k [e|]] eqn:Hk; simpl; [done|].
  case_decide; simpl; [done|]. by repeat split.
Qed.

Lemma accepted_file c file d :
  IsRegular d = true → skipFile c file = false →
  (∃ size, Info d = inr size ∧ size ≠ 0%Z) →
  accepted (unpruned c) file d = [file].
Proof.
  destruct d as [name mode info dirs rerr]. unfold IsRegular. simpl.
  intros Hm%bool_decide_eq_true Hs (size & -> & Hz). subst mode. simpl.
  rewrite Hs. simpl. by case_decide.
Qed.

Lemma accepted_dir c file d :
  IsDir d = true →
  accepted (unpruned c) file d =
  flat_map (λ d1, accepted (unpruned c) (Join file (Name d1)) d1) (ReadDir d).1.
Proof. destruct d as [name mode info dirs rerr]. simpl. by intros ->. Qed.

Lemma sends_only_walkFn c file de err :
  sends_only (λ q, (∃ d, de = Some d ∧ path q ∈ accepted (unpruned c) file d) ∧
                   keyed_by c q)
             (walkFn c file de err).
Proof.
  simpl. intros [|]; simpl; [done|].
  destruct err; simpl; [done|]. destruct de as [d|]; simpl; [|done].
  destruct (IsDir d && skipDir c file); simpl; [done|].
  destruct (IsRegular d && negb (skipFile c file)) eqn:Hreg; simpl; [|done].
  apply andb_true_iff in Hreg as [Hreg Hskip%negb_true_iff].
  destruct (Info d) as [|size] eqn:Hinfo; simpl; [done|].
  case_decide; simpl; [done|]. split; [|done].
  apply (sends_only_mono (λ q, path q = file ∧ keyed_by c q) _
           (producePair file (KeyGenerator c))); [|apply sends_only_producePair].
  intros q [-> Hq]. split; [|done]. exists d. split; [done|].
  rewrite accepted_file by eauto. by apply list_elem_of_singleton.
Qed.

Lemma sends_only_walkEntries P (walk : DirEntry → prog) dirs :
  Forall (λ d1, sends_only P (walk d1)) dirs →
  sends_only P (walkEntries walk dirs).
Proof.
  induction 1 as [|d1 dirs H1 _ IH]; [done|].
  simpl. apply sends_only_bind; [done|]. by intros [[]|].
Qed.

Lemma walkDir_unfold file d (fn : WalkDirFunc) :
  walkDir file d fn =
  bind (fn file (Some d) None) (λ err,
    if bool_decide (err ≠ None) || negb (IsDir d) then skipped err d
    else
      bind (match (ReadDir d).2 with
            | Some e => fn file (Some d) (Some (ofPathError e))
            | None => Ret None
            end) (λ err,
        if bool_decide (err ≠ None) then skipped err d
        else walkEntries (λ d1, walkDir (Join file (Name d1)) d1 fn) (ReadDir d).1)).
Proof. by destruct d. Qed.

Lemma sends_only_walkDir c d :
  ∀ file, sends_only (λ q, path q ∈ accepted (unpruned c) file d ∧ keyed_by c q)
                     (walkDir file d (walkFn c)).
Proof.
  induction d as [name mode info dirs rerr IH] using DirEntry_tree_ind.
  intros file. remember (Entry name mode info dirs rerr) as d eqn:Hd.
  assert (Forall (λ d1, ∀ f,
            sends_only (λ q, path q ∈ accepted (unpruned c) f d1 ∧ keyed_by c q)
                       (walkDir f d1 (walkFn c))) (ReadDir d).1) as IH'
    by (by subst d).
  clear IH Hd. rewrite walkDir_unfold. apply sends_only_bind.
  { eapply sends_only_mono, sends_only_walkFn.
    by intros q [(d' & [= <-] & Hq) Hk]. }
  intros err. destruct (IsDir d) eqn:Hdir;
    [|rewrite orb_true_r; apply sends_only_skipped].
  rewrite orb_false_r. case_bool_decide; [apply sends_only_skipped|].
  apply sends_only_bind.
  { destruct (ReadDir d).2; [|done]. eapply sends_only_mono, sends_only_walkFn.
    by intros q [(d' & [= <-] & Hq) Hk]. }
  intros err'. case_bool_decide; [apply sends_only_skipped|].
  apply sends_only_walkEntries.
  apply Forall_forall. intros d1 Hd1.
  eapply sends_only_mono; [|apply (proj1 (Forall_forall _ _) IH' d1 Hd1)].
  intros q [Hq Hk]. split; [|done].
  rewrite (accepted_dir _ _ d Hdir). apply list_elem_of_In, in_flat_map.
  exists d1. by rewrite <-!list_elem_of_In.
Qed.

Lemma sends_only_search lstat c :
  sends_only (λ q, path q ∈ candidates lstat c ∧ keyed_by c q)
             (search lstat (Path c) c).
Proof.
  unfold search, WalkDir, candidates. apply sends_only_bind.
  - destruct (lstat (Path c)) as [e|d].
    + simpl. by intros [|].
    + apply sends_only_walkDir.
  - intros err. by case_bool_decide.
Qed.

End sends.

Section sent_pairs.

Variable defaults : Cfg → Cfg.
Variable lstat : string → PathError + DirEntry.
Variable c0 : Cfg.
Variable caller : list string → bool.
Variable cl : call.

#[local] Abbreviation step := (step defaults lstat c0 caller cl).
#[local] Abbreviation step_any := (step_any defaults lstat c0 caller cl).
#[local] Abbreviation reachable := (reachable defaults lstat c0 caller cl).
#[local] Abbreviation cfg := (cfg defaults c0).
#[local] Abbreviation invariant := (invariant cl cfg).
#[local] Abbreviation good := (well_keyed lstat cfg).

Lemma sends_step a s s' :
  step a s s' →
  Forall (sends_only good) (tasks s) ∧ Forall good (sent s) →
  Forall (sends_only good) (tasks s') ∧ Forall good (sent s').
Proof.
  intros Hstep [Ht Hs].
  destruct Hstep; simpl; try done;
    try match goal with
    | H : tasks _ = _ |- _ =>
        rewrite H in Ht; apply Forall_app in Ht as [Hl1 Ht];
        apply Forall_cons in Ht as [Hx Hl2]; simpl in Hx
    end.
  - split; [|done]. apply Forall_app. split; [done|].
    apply Forall_singleton, sends_only_search.
  - split; [|done]. apply Forall_app. split; [done|]. by apply Forall_cons.
  - split; [|done]. apply Forall_app. split; [done|]. by apply Forall_cons.
  - destruct Hx as [Hp Hk]. split.
    + apply Forall_app. split; [done|]. by apply Forall_cons.
    + apply Forall_app. split; [done|]. by apply Forall_singleton.
  - destruct Hx as [Hgo Hk]. split; [|done].
    apply Forall_app. split; [done|]. apply Forall_cons. split; [done|].
    apply Forall_app. split; [done|]. by apply Forall_singleton.
  - split; [|done]. apply Forall_app. by split.
Qed.

Lemma reachable_sends s :
  reachable s → Forall (sends_only good) (tasks s) ∧ Forall good (sent s).
Proof.
  revert s. apply rtc_ind_r.
  - by split.
  - intros s s' _ [a Hstep] IH. by eapply sends_step.
Qed.

Lemma received_good s x :
  reachable s → x ∈ path <$> received s → x ∈ candidates lstat cfg.
Proof.
  intros Hr (q & -> & Hq)%list_elem_of_fmap.
  destruct (reachable_sends _ Hr) as [_ Hs].
  rewrite (inv_fifo _ _ _ (reachable_invariant _ _ _ _ _ _ Hr)) in Hs.
  apply Forall_app in Hs as [Hs _].
  by destruct (proj1 (Forall_forall _ _) Hs q Hq).
Qed.

(** X9: every pair that enters the pair channel is for a file at or below
    [c.Path] that is regular, kept by [skipFile], stat'ed successfully and
    not empty, and carries the key that [c.KeyGenerator] returns for that
    file, returned without an error and not empty; so every path sent to
    [dupesChan], and every path of the slice [GetResults] returns, is such a
    file. *)
Theorem X9_only_candidates s :
  reachable s →
  (∀ q, q ∈ sent s →
     path q ∈ candidates lstat cfg ∧ key q ≠ "" ∧
     KeyGenerator cfg (path q) = (key q, None)) ∧
  (∀ x, x ∈ dupes s → x ∈ candidates lstat cfg) ∧
  (∀ res err x, main s = M_got res err → x ∈ elems_of res →
     x ∈ candidates lstat cfg).
Proof.
  intros Hr. pose proof (reachable_invariant _ _ _ _ _ _ Hr) as Hinv.
  split_and!.
  - intros q Hq. destruct (reachable_sends _ Hr) as [_ Hs].
    by destruct (proj1 (Forall_forall _ _) Hs q Hq) as [? [? ?]].
  - intros x Hx. apply (received_good s); [done|].
    pose proof (inv_stream _ _ _ Hinv) as Hst.
    destruct (dupesChan cl).
    + apply streamed_subseteq. rewrite <-Hst. apply elem_of_app. by left.
    + destruct (dupes s); [|done]. by apply elem_of_nil in Hx.
  - intros res err x Hm Hx. apply (received_good s); [done|].
    destruct (inv_got _ _ _ Hinv _ _ Hm) as (_ & _ & _ & Hres).
    apply streamed_subseteq.
    rewrite streamed_duplicates, consumed_mode.
    by rewrite <-(processResults_duplicates _ _ Hres).
Qed.

End sent_pairs.

(** ** Two workers or more *)

Section flat.

Implicit Types (c : Cfg) (d : DirEntry).

Lemma go_free_flat p : go_free p → go_flat p.
Proof. induction p as [r|k IH|g file k IH|q k IH|t IHt k IH]; simpl; auto. done. Qed.

Lemma go_flat_bind p f : go_flat p → (∀ r, go_flat (f r)) → go_flat (bind p f).
Proof.
  intros Hp Hf. induction p as [r|k IH|g file k IH|q k IH|t IHt k IH]; simpl in *; auto.
  destruct Hp. auto.
Qed.

Lemma go_flat_skipped err d : go_flat (skipped err d).
Proof. unfold skipped. by destruct (_ && _). Qed.

Lemma go_free_producePair file keyGen : go_free (producePair file keyGen).
Proof.
  simpl. intros [|]; simpl; [done|].
  destruct (keyGen file) as [k [e|]]; simpl; [done|]. by case_decide.
Qed.

Lemma go_flat_walkFn c file de err : go_flat (walkFn c file de err).
Proof.
  simpl. intros [|]; simpl; [done|].
  destruct err; simpl; [done|]. destruct de as [d|]; simpl; [|done].
  destruct (IsDir d && skipDir c file); simpl; [done|].
  destruct (IsRegular d && negb (skipFile c file)); simpl; [|done].
  destruct (Info d) as [|size]; simpl; [done|].
  case_decide; simpl; [done|]. split; [|done].
  apply (go_free_producePair file (KeyGenerator c)).
Qed.

Lemma go_flat_walkEntries (walk : DirEntry → prog) dirs :
  Forall (λ d1, go_flat (walk d1)) dirs → go_flat (walkEntries walk dirs).
Proof.
  induction 1 as [|d1 dirs H1 _ IH]; [done|].
  simpl. apply go_flat_bind; [done|]. by intros [[]|].
Qed.

Lemma go_flat_walkDir c d : ∀ file, go_flat (walkDir file d (walkFn c)).
Proof.
  induction d as [name mode info dirs rerr IH] using DirEntry_tree_ind.
  intros file. remember (Entry name mode info dirs rerr) as d eqn:Hd.
  assert (Forall (λ d1, ∀ f, go_flat (walkDir f d1 (walkFn c))) (ReadDir d).1) as IH'
    by (by subst d).
  clear IH Hd. rewrite walkDir_unfold.
  apply go_flat_bind; [apply go_flat_walkFn|].
  intros err. destruct (_ || _); [apply go_flat_skipped|].
  apply go_flat_bind.
  { destruct (ReadDir d).2; [apply go_flat_walkFn|done]. }
  intros err'. case_bool_decide; [apply go_flat_skipped|].
  apply go_flat_walkEntries. eapply Forall_impl; [exact IH'|]. simpl. auto.
Qed.

Lemma go_flat_search lstat dir c : go_flat (search lstat dir c).
Proof.
  unfold search, WalkDir. apply go_flat_bind.
  - destruct (lstat dir); [apply go_flat_walkFn|apply go_flat_walkDir].
  - intros err. by case_bool_decide.
Qed.

End flat.

Section progress.

Variable defaults : Cfg → Cfg.
Variable lstat : string → PathError + DirEntry.
Variable c0 : Cfg.
Variable caller : list string → bool.

#[local] Abbreviation cfg := (cfg defaults c0).
#[local] Abbreviation walk := (psize (search lstat (Path cfg) cfg)).
#[local] Abbreviation step := (step defaults lstat c0 caller).
#[local] Abbreviation step_any := (step_any defaults lstat c0 caller).
#[local] Abbreviation reachable := (reachable defaults lstat c0 caller).

Implicit Types (cl : call) (s : state).

Lemma pool_flat_step cl a s s' :
  invariant cl cfg s → step cl a s s' → pool_flat (tasks s) → pool_flat (tasks s').
Proof.
  intros Hinv Hstep Hp.
  destruct Hstep; simpl; try done;
    try match goal with
    | H : tasks _ = ?l1 ++ _ |- _ =>
        rewrite H in Hp; destruct l1 as [|w l1]; simpl in *;
        [destruct Hp as [Hx Hl2]
        |destruct Hp as [Hw Hrest];
         apply Forall_app in Hrest as [Hl1 Hrest];
         apply Forall_cons in Hrest as [Hx Hl2]; simpl in Hx]
    end.
  - destruct (inv_early _ _ _ Hinv) as [Ht _]; [rewrite H; simpl; lia|].
    rewrite Ht. simpl. split; [apply go_flat_search|done].
  - split; [apply Hx|done].
  - split; [done|]. apply Forall_app. split; [done|]. apply Forall_cons. split; [apply Hx|done].
  - by split.
  - split; [done|]. apply Forall_app. split; [done|]. by apply Forall_cons.
  - by split.
  - split; [done|]. apply Forall_app. split; [done|]. by apply Forall_cons.
  - destruct Hx as [Ht Hk]. split; [done|]. apply Forall_app. split; [done|].
    by apply Forall_singleton.
  - done.
  - destruct l2 as [|t l2]; [done|]. apply Forall_cons in Hl2 as [Ht Hl2].
    split; [by apply go_free_flat|done].
  - split; [done|]. apply Forall_app. by split.
Qed.

Lemma reachable_pool_flat cl s : reachable cl s → pool_flat (tasks s).
Proof.
  revert s. apply rtc_ind_r; [done|].
  intros s s' Hr [a Hstep] IH. eapply pool_flat_step; [|done..].
  eapply reachable_invariant, Hr.
Qed.

Lemma waiting_has_sink cl s : invariant cl cfg s → main s = M_wait → has_sink cl = true.
Proof.
  intros Hinv Hm. destruct (has_sink cl) eqn:Hs; [done|].
  destruct (inv_nosink _ _ _ Hinv Hs) as [[?|?] _]; congruence.
Qed.

Lemma waiting_open cl s : invariant cl cfg s → main s = M_wait → pairs_closed s = false.
Proof.
  intros Hinv Hm. destruct (pairs_closed s) eqn:Hc; [|done].
  apply (inv_closed _ _ _ Hinv) in Hc as [Hp _]. rewrite Hm in Hp. simpl in Hp. lia.
Qed.

(** A send on the pair channel goes through, or the aggregator can make
    room. *)
Lemma send_progress cl s l1 p k l2 :
  invariant cl cfg s → keeps_receiving cl caller → main s = M_wait →
  tasks s = l1 ++ SendPair p k :: l2 →
  ∃ a s', a ≠ Signal ∧ step cl a s s'.
Proof.
  intros Hinv Hrecv Hm Ht.
  pose proof (waiting_open _ _ Hinv Hm) as Hopen.
  destruct (decide (length (pairs s) < 500)) as [Hlen|Hlen].
  { eexists Worker, _. split; [done|]. by eapply task_send. }
  destruct (pairs s) as [|p' rest] eqn:Hpairs; [simpl in Hlen; lia|].
  destruct (consumer s) as [|m|out m| |m|] eqn:Hc.
  - apply (inv_off _ _ _ Hinv) in Hc as [Hc|Hc].
    + rewrite Hm in Hc. done.
    + by rewrite (waiting_has_sink _ _ Hinv Hm) in Hc.
  - eexists Aggregator, _. split; [done|]. by eapply consume_recv.
  - destruct out as [|x out]; [by destruct (inv_send _ _ _ Hinv m)|].
    eexists Aggregator, _. split; [done|]. eapply consume_send; [done|].
    apply Hrecv. by eapply send_is_streaming.
  - destruct (inv_past _ _ _ Hinv) as [_ ?]; [by rewrite Hc|congruence].
  - destruct (inv_past _ _ _ Hinv) as [_ ?]; [by rewrite Hc|congruence].
  - destruct (inv_past _ _ _ Hinv) as [_ ?]; [by rewrite Hc|congruence].
Qed.

Lemma go_free_progress cl s l1 x l2 :
  invariant cl cfg s → keeps_receiving cl caller → main s = M_wait →
  tasks s = l1 ++ x :: l2 → go_free x →
  ∃ a s', a ≠ Signal ∧ step cl a s s'.
Proof.
  intros Hinv Hrecv Hm Ht Hx. destruct x as [r|k|g file k|q k|t k]; [| | | |done].
  - eexists Worker, _. split; [done|]. by eapply task_done.
  - eexists Worker, _. split; [done|]. by eapply task_shuttingDown.
  - eexists Worker, _. split; [done|]. by eapply task_keyGen.
  - by eapply send_progress.
Qed.

Hypothesis Hworkers : (2 ≤ Workers cfg ∨ Workers cfg < 0)%Z.

Lemma pool_progress cl s :
  invariant cl cfg s → keeps_receiving cl caller → pool_flat (tasks s) →
  main s = M_wait →
  ∃ a s', a ≠ Signal ∧ step cl a s s'.
Proof.
  intros Hinv Hrecv Hp Hm. destruct (tasks s) as [|w [|t rest]] eqn:Ht.
  - eexists Main, _. split; [done|]. by eapply run_wait.
  - destruct w as [r|k|g file k|q k|t k].
    + eexists Worker, _. split; [done|]. by eapply (task_done _ _ _ _ _ _ []).
    + eexists Worker, _. split; [done|]. by eapply (task_shuttingDown _ _ _ _ _ _ []).
    + eexists Worker, _. split; [done|]. by eapply (task_keyGen _ _ _ _ _ _ []).
    + by apply (send_progress cl s [] q k []).
    + eexists Worker, _. split; [done|]. eapply (task_go _ _ _ _ _ _ []); [done|].
      rewrite Ht. unfold has_room. simpl. lia.
  - destruct Hp as [_ [Hfree _]%Forall_cons].
    by apply (go_free_progress cl s [w] t rest).
Qed.

(** While the call has not returned, some goroutine can take a step. *)
Lemma run_progress cl s :
  keeps_receiving cl caller → reachable cl s → ¬ returned cl (main s) →
  ∃ a s', a ≠ Signal ∧ step cl a s s'.
Proof.
  intros Hrecv Hr Hret. pose proof (reachable_invariant _ _ _ _ _ _ Hr) as Hinv.
  destruct (main s) as [| | | |e|e|res e] eqn:Hm.
  - destruct (dupesChan cl || resultsChan cl) eqn:Hs.
    + eexists Main, _. split; [done|]. by eapply run_consumer.
    + eexists Main, _. split; [done|]. by eapply run_sanity.
  - eexists Main, _. split; [done|]. by eapply run_shutdown.
  - eexists Main, _. split; [done|]. eapply run_search; [done|].
    destruct (inv_early _ _ _ Hinv) as [Ht _]; [rewrite Hm; simpl; lia|].
    rewrite Ht. unfold has_room. simpl. lia.
  - apply pool_progress; [done|done| |done]. by eapply reachable_pool_flat.
  - eexists Main, _. split; [done|]. by eapply run_close.
  - destruct cl as [|given]; [|done].
    destruct (batch_progress defaults lstat c0 caller s) as (a & s' & Ha & Hstep).
    + done.
    + split; [rewrite Hm; simpl; lia|]. apply (inv_late _ _ _ Hinv).
      rewrite Hm. simpl. lia.
    + by rewrite Hm.
    + exists a, s'. split; [|done]. by destruct Ha as [-> | ->].
  - destruct (inv_got _ _ _ Hinv _ _ Hm) as [-> _]. done.
Qed.

Lemma returned_or_not cl pc : returned cl pc ∨ ¬ returned cl pc.
Proof. destruct cl, pc; simpl; tauto. Qed.

Lemma can_return cl n :
  keeps_receiving cl caller →
  ∀ s, reachable cl s → fuel walk s ≤ n →
       ∃ s', rtc (step_any cl) s s' ∧ returned cl (main s').
Proof.
  intros Hrecv. induction n as [|n IH]; intros s Hr Hf.
  - destruct (returned_or_not cl (main s)) as [Hret|Hret]; [by exists s|].
    destruct (run_progress _ _ Hrecv Hr Hret) as (a & s' & _ & Hstep).
    apply step_fuel in Hstep. lia.
  - destruct (returned_or_not cl (main s)) as [Hret|Hret]; [by exists s|].
    destruct (run_progress _ _ Hrecv Hr Hret) as (a & s' & _ & Hstep).
    destruct (IH s') as (s'' & Hs'' & Hret'').
    + eapply rtc_r; [exact Hr|]. by exists a.
    + apply step_fuel in Hstep. lia.
    + exists s''. split; [|done]. eapply rtc_l; [|exact Hs'']. by exists a.
Qed.

(** X10: with a worker limit of two or more, or with no limit, and with a
    caller that in streaming mode keeps receiving from [dupesChan], a search
    never deadlocks: in every state of every run in which the call has not
    returned, some goroutine can take a step without any signal arriving;
    every run is finite; and the run can be continued to a state in which
    the call has returned. *)
Theorem X10_no_deadlock cl s :
  keeps_receiving cl caller →
  reachable cl s →
  (¬ returned cl (main s) → ∃ a s', a ≠ Signal ∧ step cl a s s') ∧
  (∀ n s', nsteps (step_any cl) n s s' → n ≤ fuel walk s) ∧
  (∃ s', rtc (step_any cl) s s' ∧ returned cl (main s')).
Proof.
  intros Hrecv Hr. split_and!.
  - by apply run_progress.
  - intros n s'. apply bounded_runs.
  - by eapply can_return.
Qed.

End progress.

(** ** After the shutdown *)

(** X8: once the shutdown channel is closed every cancellation check
    answers true and leaves the channel closed; a search whose checks all
    answer true returns nil without starting a task, sending a pair or
    calling the key generator, whatever [os.Lstat] and [os.ReadDir] report;
    and so does a [producePair]. *)
Theorem X8_shutdown_stops_search lstat dir c file keyGen :
  shuttingDown SdClosed = (true, SdClosed) ∧
  exec true (search lstat dir c) = idle ∧
  exec true (producePair file keyGen) = idle.
Proof.
  split_and!.
  - reflexivity.
  - apply exec_true_search.
  - apply exec_true_producePair.
Qed.

(** ** The further properties on concrete runs *)

Lemma X7_witness :
  exec false (search ex_lstat "root" (ex_cfg 4)) =
  Outcome None [producePair "root/a" ex_keyGen; producePair "root/b" ex_keyGen] [] [].
Proof. apply (X7_tasks_of_walk ex_lstat (ex_cfg 4) "root" ex_root); reflexivity. Defined.

Lemma X9_witness : "root/a" ∈ candidates ex_lstat (cfg (Cfg_defaults 8) (ex_cfg 4)).
Proof.
  apply (proj1 (proj2 (X9_only_candidates (Cfg_defaults 8) ex_lstat (ex_cfg 4) receiving
           (StreamResults true) ex_stream_end ex_stream_end_reachable))).
  simpl. apply list_elem_of_here.
Defined.

Lemma X10_witness :
  ∃ a s', a ≠ Signal ∧
    step (Cfg_defaults 8) ex_lstat (ex_cfg 4) receiving (StreamResults true) a ex_launched s'.
Proof.
  apply (X10_no_deadlock (Cfg_defaults 8) ex_lstat (ex_cfg 4) receiving).
  - left. vm_compute. discriminate.
  - intros _ got. reflexivity.
  - apply ex_launched_reachable.
  - simpl. tauto.
Defined.
